(** * A shallow embedding of [src/App.jsx]

    The collaborative editor front end is a single React component.  Its
    state variables, refs, socket listeners and effect closures are gathered
    in one record; every handler of the component becomes a function on that
    record, split at each [await] into the part that runs up to the
    suspension and the part that runs when the awaited promise settles.
    React's rendering is the function [render]: it runs the cleanups and
    the setups of the effects whose dependencies changed.

    The login form ([handleAuthChange], [handleAuthSubmit]), the markup and
    the console output are left out: a session starts from the token found
    in [localStorage]. *)

From Stdlib Require Import NArith String Ascii.
From stdpp Require Import base option list gmap.

Local Open Scope N_scope.

(** ** JavaScript strings

    A JavaScript string is a sequence of UTF-16 code units. *)

Abbreviation jsstring := (list N).

(** [undefined] is [None]. *)
Abbreviation jsval := (option (list N)).

Definition js (s : string) : jsstring :=
  map N_of_ascii (list_ascii_of_string s).

(** The code units that [String.prototype.trim] strips: ECMAScript
    WhiteSpace and LineTerminator. *)
Definition is_ws (c : N) : bool :=
  bool_decide (c ∈ [ 0x09; 0x0A; 0x0B; 0x0C; 0x0D; 0x20; 0xA0; 0x1680;
                     0x2000; 0x2001; 0x2002; 0x2003; 0x2004; 0x2005; 0x2006;
                     0x2007; 0x2008; 0x2009; 0x200A; 0x2028; 0x2029; 0x202F;
                     0x205F; 0x3000; 0xFEFF ]).

Fixpoint trimStart (s : jsstring) : jsstring :=
  match s with
  | c :: s' => if is_ws c then trimStart s' else s
  | [] => []
  end.

Definition trim (s : jsstring) : jsstring :=
  rev (trimStart (rev (trimStart s))).

Fixpoint startsWith (sep s : jsstring) : bool :=
  match sep, s with
  | [], _ => true
  | a :: sep', b :: s' => if decide (a = b) then startsWith sep' s' else false
  | _ :: _, [] => false
  end.

(** [cut sep s] finds the leftmost occurrence of [sep] in [s] and returns
    what precedes it and what follows it. *)
Fixpoint cut (sep s : jsstring) : option (jsstring * jsstring) :=
  if startsWith sep s then Some ([], drop (length sep) s)
  else match s with
       | [] => None
       | c :: s' =>
           match cut sep s' with
           | Some (a, b) => Some (c :: a, b)
           | None => None
           end
       end.

Definition includes (sep s : jsstring) : bool :=
  match cut sep s with Some _ => true | None => false end.

(** [String.prototype.split] with a non-empty separator: the pieces between
    consecutive non-overlapping occurrences, scanning from the left.  Every
    occurrence of a non-empty separator consumes a code unit, so [length s]
    rounds are enough. *)
Fixpoint split_rounds (n : nat) (sep s : jsstring) : list jsstring :=
  match n with
  | O => [s]
  | S n' =>
      match cut sep s with
      | None => [s]
      | Some (a, b) => a :: split_rounds n' sep b
      end
  end.

Definition split (sep s : jsstring) : list jsstring :=
  split_rounds (length s) sep s.

Definition qdoc : jsstring := js "?doc=".
Definition documents_seg : jsstring := js "/documents/".

(** Lines 184-192 of [handleJoinDocument]: the document id of a link. *)
Definition handleJoinDocument_docId (joinLink : jsstring) : jsval :=
  if includes qdoc joinLink then split qdoc joinLink !! 1%nat
  else if includes documents_seg joinLink then split documents_seg joinLink !! 1%nat
  else Some (trim joinLink).

(** JavaScript truthiness of a string-or-undefined value. *)
Definition truthy (v : jsval) : bool :=
  match v with
  | Some (_ :: _) => true
  | _ => false
  end.

Inductive LinkResolution :=
| EnterLink                     (* 'Please enter a shared link' *)
| InvalidLink                   (* 'Invalid link format. ...' is thrown *)
| DocId (docId : jsstring).

(** Lines 177-196: the guard on a blank input, the parse, the guard on an
    empty id. *)
Definition resolveJoinLink (joinLink : jsstring) : LinkResolution :=
  if negb (truthy (Some (trim joinLink))) then EnterLink
  else match handleJoinDocument_docId joinLink with
       | Some (c :: r) => DocId (c :: r)
       | _ => InvalidLink
       end.


(** Declarative vocabulary for statements about links. *)
Definition occurs (sep s : jsstring) : Prop :=
  ∃ a b, s = a ++ sep ++ b.

(** [a] precedes, and [b] follows, the leftmost occurrence of [sep]. *)
Definition leftmost_cut (sep s a b : jsstring) : Prop :=
  s = a ++ sep ++ b ∧
  ∀ a' b', s = a' ++ sep ++ b' → (length a ≤ length a')%nat.

(** [m] is [b] up to its first occurrence of [sep], or all of [b] when
    there is none. *)
Definition up_to (sep b m : jsstring) : Prop :=
  (¬ occurs sep b ∧ m = b) ∨ (∃ r, leftmost_cut sep b m r).

Definition id_or_invalid (m : jsstring) : LinkResolution :=
  match m with [] => InvalidLink | _ :: _ => DocId m end.


(** [`${v}`] and property keys: [undefined] prints as "undefined". *)
Definition to_string (v : jsval) : jsstring :=
  match v with Some s => s | None => js "undefined" end.

(** ** Data model *)

(** A document object as the REST collaborator returns it.  [oid] is the
    identity of the JavaScript object, which is what React compares when it
    decides whether [selectedDoc] changed; a property the body lacks reads as
    [undefined]. *)
Record Doc := mkDoc {
  oid : N;
  _id : jsval;
  title : jsval;
  doc_content : jsval
}.

#[global] Instance Doc_eq_dec : EqDecision Doc.
Proof. solve_decision. Defined.

(** The outcome of [await fetch(...)] followed by [await res.json()]: the
    request is rejected with an error message, or a response arrives whose
    body either fails to parse (again with a message) or is a value of the
    endpoint's type. *)
Inductive JsonResult (A : Type) :=
| JsonError (message : jsstring)
| Json (data : A).
Arguments JsonError {A} message.
Arguments Json {A} data.

Inductive FetchResult (A : Type) :=
| Rejected (message : jsstring)
| Response (status : N) (body : JsonResult A).
Arguments Rejected {A} message.
Arguments Response {A} status body.

Definition res_ok {A} (r : FetchResult A) : bool :=
  match r with
  | Response st _ => (200 <=? st) && (st <=? 299)
  | Rejected _ => false
  end.

(** A [<video>] element created by [addPeerStream]. *)
Record VideoEl := mkVideo {
  srcObject : option N;
  autoplay : bool;
  playsInline : bool;
  muted : bool
}.

(** Handles of objects owned by the platform and by PeerJS (streams, peers,
    media connections) are numbers. *)

(** ** Plain objects used as dictionaries

    The [peers] state is a plain JavaScript object keyed by peer id.  Its
    own properties are kept in the order in which they were created:
    writing an existing key keeps its place, writing a new key adds it
    last, which is what [{...prev, [peerId]: call}] does. *)
Record jsobject (V : Type) := JsObject { own : list (list N * V) }.
Arguments JsObject {V} own.
Arguments own {V} _.

Fixpoint own_lookup {V} (k : jsstring) (l : list (jsstring * V)) : option V :=
  match l with
  | [] => None
  | (k', v) :: l' => if decide (k = k') then Some v else own_lookup k l'
  end.

Fixpoint own_insert {V} (k : jsstring) (v : V) (l : list (jsstring * V))
    : list (jsstring * V) :=
  match l with
  | [] => [(k, v)]
  | (k', v') :: l' =>
      if decide (k = k') then (k, v) :: l' else (k', v') :: own_insert k v l'
  end.

Definition own_delete {V} (k : jsstring) (l : list (jsstring * V))
    : list (jsstring * V) :=
  filter (λ e, e.1 ≠ k) l.

#[global] Instance jsobject_lookup {V} : Lookup (list N) V (jsobject V) :=
  λ k o, own_lookup k (own o).
#[global] Instance jsobject_insert {V} : Insert (list N) V (jsobject V) :=
  λ k v o, JsObject (own_insert k v (own o)).
#[global] Instance jsobject_delete {V} : Delete (list N) (jsobject V) :=
  λ k o, JsObject (own_delete k (own o)).
#[global] Instance jsobject_empty {V} : Empty (jsobject V) := JsObject [].

(** A key that is an array index: the canonical decimal form of a number
    below 2^32 - 1. *)
Fixpoint digits_value (acc : N) (s : jsstring) : option N :=
  match s with
  | [] => Some acc
  | c :: s' =>
      if (48 <=? c) && (c <=? 57) then digits_value (10 * acc + (c - 48)) s'
      else None
  end.

Definition array_index (k : jsstring) : option N :=
  match k with
  | [] => None
  | c :: r =>
      if (c =? 48) && negb (bool_decide (r = [])) then None
      else match digits_value 0 k with
           | Some n => if n <=? 4294967294 then Some n else None
           | None => None
           end
  end.

Fixpoint insert_by_index {V} (n : N) (v : V) (l : list (N * V)) : list (N * V) :=
  match l with
  | [] => [(n, v)]
  | (m, w) :: l' =>
      if n <? m then (n, v) :: (m, w) :: l' else (m, w) :: insert_by_index n v l'
  end.

(** [Object.values]: the values of the array-index keys in ascending
    numeric order, then those of the other keys in creation order. *)
Definition Object_values {V} (o : jsobject V) : list V :=
  let indexed := omap (λ e, (λ n, (n, e.2)) <$> array_index e.1) (own o) in
  let named := filter (λ e, array_index e.1 = None) (own o) in
  (snd <$> foldr (λ e, insert_by_index e.1 e.2) [] indexed) ++ (snd <$> named).

(** The properties that every plain object inherits from
    [Object.prototype]; all of them read as truthy values. *)
Definition Object_prototype_keys : list jsstring :=
  [ js "constructor"; js "__defineGetter__"; js "__defineSetter__";
    js "hasOwnProperty"; js "__lookupGetter__"; js "__lookupSetter__";
    js "isPrototypeOf"; js "propertyIsEnumerable"; js "toString";
    js "valueOf"; js "__proto__"; js "toLocaleString" ].

Definition inherited (k : jsstring) : bool :=
  bool_decide (k ∈ Object_prototype_keys).

(** ** What the component does to the outside world

    [SrcObjectOnBuiltin key v] is the assignment [b.srcObject = v] to the
    built-in object [b] that a dictionary with no property [key] of its own
    yields under [key]; for [key] = '__proto__' that object is
    [Object.prototype] itself. *)

Inductive SocketOut :=
| join_document (docId : jsval)
| edit_document (documentId content : jsval)
| join_video (docId : jsval) (peerId : jsstring).

Inductive Method := GET | POST | PUT | DELETE.

Inductive Endpoint :=
| ApiDocuments
| ApiDocument (id : jsval).

Inductive Effect :=
| SocketEmit (e : SocketOut)
| Fetch (m : Method) (url : Endpoint) (bearer : jsstring) (body : option jsval)
| GetUserMedia
| NewPeer (peer : N)
| PeerCall (peer : N) (peerId : jsstring) (stream call : N)
| CallAnswer (call stream : N)
| CallClose (call : N)
| PeerDestroy (peer : N)
| TracksStop (stream : N)
| Alert (message : jsstring)
| SrcObjectOnBuiltin (key : jsstring) (stream : option N).

#[global] Instance SocketOut_eq_dec : EqDecision SocketOut.
Proof. solve_decision. Defined.
#[global] Instance Method_eq_dec : EqDecision Method.
Proof. solve_decision. Defined.
#[global] Instance Endpoint_eq_dec : EqDecision Endpoint.
Proof. solve_decision. Defined.
#[global] Instance Effect_eq_dec : EqDecision Effect.
Proof. solve_decision. Defined.

(** ** The state of the component *)

(** [token], [user] and the two [localStorage] entries. *)
Record Auth := mkAuth {
  a_token : jsstring;
  a_user : option jsstring;
  a_ls_token : option jsstring;
  a_ls_user : option jsstring
}.

(** The document state; [documents_ver] is the identity of the array held by
    [documents] (every [setDocuments] installs a new array); [isRemote] is
    the ref. *)
Record Docs := mkDocs {
  d_documents : list Doc;
  d_documents_ver : N;
  d_selectedDoc : option Doc;
  d_content : jsval;
  d_isRemote : bool
}.

Record JoinForm := mkJoinForm {
  j_joinLink : jsstring;
  j_joinError : jsstring;
  j_joinSuccess : jsstring
}.

(** The video-call state; [videoRefs] is the ref.  The order of the
    properties of [videoRefs.current] matters to the markup only, which is
    left out: it is a finite map of its own properties, and what a read
    finds on the prototype chain beyond them is [found_on_prototype]. *)
Record Call := mkCall {
  c_inCall : bool;
  c_myPeer : option N;
  c_myStream : option N;
  c_peers : jsobject N;
  c_videoRefs : gmap (list N) VideoEl
}.

(** Listeners and closures that outlive a render, and the platform objects
    they refer to.
    - [doc_listeners]: how many 'document-updated' listeners the socket holds;
    - [doc_cleanup]: whether the last run of the effect of line 78 returned
      its cleanup function;
    - [call_cleanup_env]: the values of [myPeer], [myStream] and [peers] in
      the render whose effect of line 319 is the one currently installed;
    - [video_listeners]: the [(peer, stream)] each pair of 'user-joined-video'
      and 'user-left-video' listeners closes over, in registration order;
    - [peer_handlers]: per peer, the [selectedDoc] and [stream] its 'open' and
      'call' handlers close over;
    - [call_handlers]: per media connection, the peer id its 'stream' handler
      passes to [addPeerStream];
    - [peer_id]: [peer.id], defined once the peer is open;
    - [location_doc]: the [doc] parameter of [window.location.search]. *)
Record Env := mkEnv {
  e_doc_listeners : nat;
  e_doc_cleanup : bool;
  e_call_cleanup_env : option N * option N * jsobject N;
  e_video_listeners : list (N * N);
  e_peer_handlers : gmap N (Doc * N);
  e_call_handlers : gmap N (list N);
  e_peer_id : gmap N (list N);
  e_next_handle : N;
  e_location_doc : jsval
}.

Record AppState := mkApp {
  auth : Auth;
  docs : Docs;
  joinForm : JoinForm;
  call : Call;
  env : Env;
  log : list Effect
}.

Definition token s := a_token (auth s).
Definition user s := a_user (auth s).
Definition ls_token s := a_ls_token (auth s).
Definition ls_user s := a_ls_user (auth s).
Definition documents s := d_documents (docs s).
Definition documents_ver s := d_documents_ver (docs s).
Definition selectedDoc s := d_selectedDoc (docs s).
Definition content s := d_content (docs s).
Definition isRemote s := d_isRemote (docs s).
Definition joinLink s := j_joinLink (joinForm s).
Definition joinError s := j_joinError (joinForm s).
Definition joinSuccess s := j_joinSuccess (joinForm s).
Definition inCall s := c_inCall (call s).
Definition myPeer s := c_myPeer (call s).
Definition myStream s := c_myStream (call s).
Definition peers s := c_peers (call s).
Definition videoRefs s := c_videoRefs (call s).
Definition doc_listeners s := e_doc_listeners (env s).
Definition doc_cleanup s := e_doc_cleanup (env s).
Definition call_cleanup_env s := e_call_cleanup_env (env s).
Definition video_listeners s := e_video_listeners (env s).
Definition peer_handlers s := e_peer_handlers (env s).
Definition call_handlers s := e_call_handlers (env s).
Definition peer_id s := e_peer_id (env s).
Definition next_handle s := e_next_handle (env s).
Definition location_doc s := e_location_doc (env s).

(** [Object.prototype.srcObject]: nothing, until an assignment through the
    key '__proto__' defines it for every object. *)
Definition prototype_srcObject (l : list Effect) : option N :=
  foldl (λ v e, match e with
                | SrcObjectOnBuiltin key v' =>
                    if bool_decide (key = js "__proto__") then v' else v
                | _ => v
                end) None l.

(** Whether reading [key] from a dictionary with no property [key] of its
    own finds a truthy value on the prototype chain. *)
Definition found_on_prototype (s : AppState) (key : jsstring) : bool :=
  inherited key ||
  bool_decide (key = js "srcObject") &&
    bool_decide (is_Some (prototype_srcObject (log s))).

Definition with_auth (f : Auth → Auth) (s : AppState) : AppState :=
  mkApp (f (auth s)) (docs s) (joinForm s) (call s) (env s) (log s).
Definition with_docs (f : Docs → Docs) (s : AppState) : AppState :=
  mkApp (auth s) (f (docs s)) (joinForm s) (call s) (env s) (log s).
Definition with_joinForm (f : JoinForm → JoinForm) (s : AppState) : AppState :=
  mkApp (auth s) (docs s) (f (joinForm s)) (call s) (env s) (log s).
Definition with_call (f : Call → Call) (s : AppState) : AppState :=
  mkApp (auth s) (docs s) (joinForm s) (f (call s)) (env s) (log s).
Definition with_env (f : Env → Env) (s : AppState) : AppState :=
  mkApp (auth s) (docs s) (joinForm s) (call s) (f (env s)) (log s).

(** Appending to the trace of effects. *)
Definition perform (e : Effect) (s : AppState) : AppState :=
  mkApp (auth s) (docs s) (joinForm s) (call s) (env s) (log s ++ [e]).

(** The setters of [useState], assignments to refs and to [localStorage]. *)
Definition setToken v := with_auth (λ a, mkAuth v (a_user a) (a_ls_token a) (a_ls_user a)).
Definition setUser v := with_auth (λ a, mkAuth (a_token a) v (a_ls_token a) (a_ls_user a)).
Definition set_ls_token v := with_auth (λ a, mkAuth (a_token a) (a_user a) v (a_ls_user a)).
Definition set_ls_user v := with_auth (λ a, mkAuth (a_token a) (a_user a) (a_ls_token a) v).

Definition setDocuments (f : list Doc → list Doc) :=
  with_docs (λ d, mkDocs (f (d_documents d)) (N.succ (d_documents_ver d))
                         (d_selectedDoc d) (d_content d) (d_isRemote d)).
Definition setSelectedDoc v :=
  with_docs (λ d, mkDocs (d_documents d) (d_documents_ver d) v (d_content d) (d_isRemote d)).
Definition setContent v :=
  with_docs (λ d, mkDocs (d_documents d) (d_documents_ver d) (d_selectedDoc d) v (d_isRemote d)).
Definition set_isRemote v :=
  with_docs (λ d, mkDocs (d_documents d) (d_documents_ver d) (d_selectedDoc d) (d_content d) v).

Definition setJoinLink v := with_joinForm (λ j, mkJoinForm v (j_joinError j) (j_joinSuccess j)).
Definition setJoinError v := with_joinForm (λ j, mkJoinForm (j_joinLink j) v (j_joinSuccess j)).
Definition setJoinSuccess v := with_joinForm (λ j, mkJoinForm (j_joinLink j) (j_joinError j) v).

Definition setInCall v :=
  with_call (λ c, mkCall v (c_myPeer c) (c_myStream c) (c_peers c) (c_videoRefs c)).
Definition setMyPeer v :=
  with_call (λ c, mkCall (c_inCall c) v (c_myStream c) (c_peers c) (c_videoRefs c)).
Definition setMyStream v :=
  with_call (λ c, mkCall (c_inCall c) (c_myPeer c) v (c_peers c) (c_videoRefs c)).
Definition setPeers (f : jsobject N → jsobject N) :=
  with_call (λ c, mkCall (c_inCall c) (c_myPeer c) (c_myStream c) (f (c_peers c)) (c_videoRefs c)).
Definition set_videoRefs (f : gmap (list N) VideoEl → gmap (list N) VideoEl) :=
  with_call (λ c, mkCall (c_inCall c) (c_myPeer c) (c_myStream c) (c_peers c) (f (c_videoRefs c))).

Definition set_doc_listeners v :=
  with_env (λ e, mkEnv v (e_doc_cleanup e) (e_call_cleanup_env e) (e_video_listeners e)
                       (e_peer_handlers e) (e_call_handlers e) (e_peer_id e)
                       (e_next_handle e) (e_location_doc e)).
Definition set_doc_cleanup v :=
  with_env (λ e, mkEnv (e_doc_listeners e) v (e_call_cleanup_env e) (e_video_listeners e)
                       (e_peer_handlers e) (e_call_handlers e) (e_peer_id e)
                       (e_next_handle e) (e_location_doc e)).
Definition set_call_cleanup_env v :=
  with_env (λ e, mkEnv (e_doc_listeners e) (e_doc_cleanup e) v (e_video_listeners e)
                       (e_peer_handlers e) (e_call_handlers e) (e_peer_id e)
                       (e_next_handle e) (e_location_doc e)).
Definition set_video_listeners v :=
  with_env (λ e, mkEnv (e_doc_listeners e) (e_doc_cleanup e) (e_call_cleanup_env e) v
                       (e_peer_handlers e) (e_call_handlers e) (e_peer_id e)
                       (e_next_handle e) (e_location_doc e)).
Definition set_peer_handlers v :=
  with_env (λ e, mkEnv (e_doc_listeners e) (e_doc_cleanup e) (e_call_cleanup_env e)
                       (e_video_listeners e) v (e_call_handlers e) (e_peer_id e)
                       (e_next_handle e) (e_location_doc e)).
Definition set_call_handlers v :=
  with_env (λ e, mkEnv (e_doc_listeners e) (e_doc_cleanup e) (e_call_cleanup_env e)
                       (e_video_listeners e) (e_peer_handlers e) v (e_peer_id e)
                       (e_next_handle e) (e_location_doc e)).
Definition set_peer_id v :=
  with_env (λ e, mkEnv (e_doc_listeners e) (e_doc_cleanup e) (e_call_cleanup_env e)
                       (e_video_listeners e) (e_peer_handlers e) (e_call_handlers e) v
                       (e_next_handle e) (e_location_doc e)).
Definition set_next_handle v :=
  with_env (λ e, mkEnv (e_doc_listeners e) (e_doc_cleanup e) (e_call_cleanup_env e)
                       (e_video_listeners e) (e_peer_handlers e) (e_call_handlers e)
                       (e_peer_id e) v (e_location_doc e)).

(** Statements of a handler run left to right. *)
Notation "s |> f" := (f s) (at level 68, left associativity, only parsing).

Definition when (b : bool) (f : AppState → AppState) : AppState → AppState :=
  if b then f else λ s, s.

Definition perform_all (l : list Effect) (s : AppState) : AppState :=
  foldl (λ s e, perform e s) s l.

(** A fresh handle for an object that comes into being (a stream, a peer, a
    media connection). *)
Definition fresh (k : N → AppState → AppState) (s : AppState) : AppState :=
  let h := next_handle s in
  k h (set_next_handle (N.succ h) s).

(** ** Handlers *)

(** Lines 117-124. *)
Definition handleLogout (s : AppState) : AppState :=
  s |> setToken []
    |> setUser None
    |> set_ls_token None
    |> set_ls_user None
    |> setSelectedDoc None
    |> setContent (Some []).

(** Lines 57-75, the body of the effect: the request for the list. *)
Definition fetchDocuments (token : jsstring) (s : AppState) : AppState :=
  match token with
  | [] => s
  | _ :: _ => perform (Fetch GET ApiDocuments token None) s
  end.

(** Lines 62-74: the promise chain once the request has settled.  The body
    of the list endpoint is [Some docs] when it is an array. *)
Definition fetchDocuments_settled (r : FetchResult (option (list Doc)))
    (s : AppState) : AppState :=
  match r with
  | Rejected _ => s |> setDocuments (λ _, [])
  | Response st body =>
      if st =? 401 then s |> handleLogout |> setDocuments (λ _, [])
      else match body with
           | JsonError _ => s |> setDocuments (λ _, [])
           | Json (Some docs) => s |> setDocuments (λ _, docs)
           | Json None => s |> setDocuments (λ _, [])
           end
  end.

(** Lines 127-133: up to the [await]. *)
Definition handleSelectDoc (token : jsstring) (doc : Doc) (s : AppState) : AppState :=
  s |> setSelectedDoc (Some doc)
    |> perform (Fetch GET (ApiDocument (_id doc)) token None).

(** Lines 134-139: after the [await]. *)
Definition handleSelectDoc_settled (r : FetchResult Doc) (s : AppState) : AppState :=
  match r with
  | Response _ (Json data) => s |> setContent (doc_content data)
  | Response _ (JsonError _) | Rejected _ => s |> setContent (Some [])
  end.

(** Lines 141-152: up to the [await]; [title] is what [prompt] returned. *)
Definition handleCreateDoc (token : jsstring) (title : jsval) (s : AppState) : AppState :=
  if negb (truthy title) then s
  else s |> perform (Fetch POST ApiDocuments token (Some title)).

(** Lines 153-157: after the [await]. *)
Definition handleCreateDoc_settled (r : FetchResult Doc) (s : AppState) : AppState :=
  match r with
  | Response _ (Json doc) => s |> setDocuments (λ docs, docs ++ [doc])
  | Response _ (JsonError _) | Rejected _ => s
  end.

(** Lines 159-164: up to the [await]. *)
Definition handleDeleteDoc (token : jsstring) (docId : jsval) (s : AppState) : AppState :=
  s |> perform (Fetch DELETE (ApiDocument docId) token None).

(** Lines 165-169: after the [await], whether the request was rejected or
    answered; [selectedDoc] is the value the handler closed over. *)
Definition handleDeleteDoc_settled (docId : jsval) (selectedDoc : option Doc)
    (r : FetchResult unit) (s : AppState) : AppState :=
  s |> setDocuments (filter (λ d, _id d ≠ docId))
    |> when (match selectedDoc with
             | Some d => bool_decide (_id d = docId)
             | None => false
             end) (setSelectedDoc None).

(** [err.message || 'Failed to join document'] of line 226. *)
Definition join_failed (message : jsstring) : AppState → AppState :=
  setJoinError (match message with
                | [] => js "Failed to join document"
                | _ :: _ => message
                end).

(** Lines 173-201: up to the [await]. *)
Definition handleJoinDocument (token : jsstring) (s : AppState) : AppState :=
  let s := s |> setJoinError [] |> setJoinSuccess [] in
  match resolveJoinLink (joinLink s) with
  | EnterLink => s |> setJoinError (js "Please enter a shared link")
  | InvalidLink =>
      s |> join_failed (js "Invalid link format. Please check the shared link.")
  | DocId docId => s |> perform (Fetch GET (ApiDocument (Some docId)) token None)
  end.

(** Lines 203-228: after the [await]. *)
Definition handleJoinDocument_settled (docId : jsstring) (r : FetchResult Doc)
    (s : AppState) : AppState :=
  match r with
  | Rejected message => s |> join_failed message
  | Response st body =>
      if negb (res_ok r) then
        if st =? 404 then
          s |> join_failed (js "Document not found. Check if the link is correct.")
        else if st =? 401 then
          s |> join_failed (js "You do not have access to this document.")
        else
          s |> join_failed (js "Failed to join document. Please try again.")
      else match body with
           | JsonError message => s |> join_failed message
           | Json data =>
               s |> setSelectedDoc (Some data)
                 |> setContent (doc_content data)
                 |> perform (SocketEmit (join_document (Some docId)))
                 |> setJoinLink []
                 |> setJoinSuccess (js "Successfully joined: " ++ to_string (title data))
           end
  end.

(** The [onChange] of the join input, lines 375-379. *)
Definition joinInput_onChange (value : jsstring) (s : AppState) : AppState :=
  s |> setJoinLink value |> setJoinError [] |> setJoinSuccess [].

(** Lines 232-246: [handleEditorChange] up to its [await], or to its end
    when it does not reach one. *)
Definition handleEditorChange (token : jsstring) (value : jsval)
    (s : AppState) : AppState :=
  let s := s |> setContent value in
  match selectedDoc s with
  | None => s
  | Some doc =>
      if negb (isRemote s) then
        s |> perform (SocketEmit (edit_document (_id doc) value))
          |> perform (Fetch PUT (ApiDocument (_id doc)) token (Some value))
      else
        s |> set_isRemote false
  end.

(** Lines 247-251: what is left of [handleEditorChange] once the [PUT] has
    settled, either way. *)
Definition handleEditorChange_settled (r : FetchResult unit)
    (s : AppState) : AppState :=
  s |> set_isRemote false.

(** Lines 82-85: one 'document-updated' listener. *)
Definition on_document_updated (newContent : jsval) (s : AppState) : AppState :=
  s |> set_isRemote true
    |> setContent newContent.

(** The socket calls every listener it holds. *)
Definition socket_document_updated (newContent : jsval) (s : AppState) : AppState :=
  Nat.iter (doc_listeners s) (on_document_updated newContent) s.

(** Lines 307-317.  The test of line 308 reads [videoRefs.current[peerId]]
    through the prototype chain: where the dictionary has no element of its
    own and the chain has a truthy value, no element is created, and
    line 314 stores the stream on the value found. *)
Definition addPeerStream (peerId : jsstring) (stream : N) (isSelf : bool)
    (s : AppState) : AppState :=
  s |> match videoRefs s !! peerId with
       | Some el =>
           set_videoRefs
             (<[peerId := mkVideo (Some stream) (autoplay el) (playsInline el) (muted el)]>)
       | None =>
           if found_on_prototype s peerId
           then perform (SrcObjectOnBuiltin peerId (Some stream))
           else set_videoRefs (<[peerId := mkVideo (Some stream) true true isSelf]>)
       end
    |> setPeers (λ p, p).

(** Lines 255-259: up to the [await]. *)
Definition handleJoinVideoCall (s : AppState) : AppState :=
  if inCall s || negb (bool_decide (is_Some (selectedDoc s))) then s
  else s |> setInCall true
         |> perform GetUserMedia.

(** Lines 260-304: after the [await].  [granted] tells whether
    [getUserMedia] resolved; [selectedDoc] is the document the handler closed
    over. *)
Definition handleJoinVideoCall_settled (selectedDoc : Doc) (granted : bool)
    (s : AppState) : AppState :=
  if granted then
    s |> fresh (λ stream s,
    s |> setMyStream (Some stream)
      |> fresh (λ peer s,
    s |> perform (NewPeer peer)
      |> setMyPeer (Some peer)
      |> set_peer_handlers (<[peer := (selectedDoc, stream)]> (peer_handlers s))
      |> set_video_listeners (video_listeners s ++ [(peer, stream)])
      |> addPeerStream (js "me") stream true))
  else
    s |> perform (Alert (js "Could not access camera/microphone."))
      |> setInCall false.

(** Lines 265-267: the peer reports its id. *)
Definition peer_on_open (peer : N) (id : jsstring) (s : AppState) : AppState :=
  match peer_handlers s !! peer with
  | Some (doc, _) =>
      s |> set_peer_id (<[peer := id]> (peer_id s))
        |> perform (SocketEmit (join_video (_id doc) id))
  | None => s
  end.

(** Lines 269-275: an inbound media connection from [remote]. *)
Definition peer_on_call (peer : N) (remote : jsstring) (s : AppState) : AppState :=
  match peer_handlers s !! peer with
  | Some (_, stream) =>
      s |> fresh (λ call s,
      s |> perform (CallAnswer call stream)
        |> set_call_handlers (<[call := remote]> (call_handlers s))
        |> setPeers (<[remote := call]>))
  | None => s
  end.

(** Lines 271-273 and 280-282: a media connection delivers the remote
    stream. *)
Definition call_on_stream (call : N) (s : AppState) : AppState :=
  match call_handlers s !! call with
  | Some peerId => s |> fresh (λ userVideoStream, addPeerStream peerId userVideoStream false)
  | None => s
  end.

(** Whether [peer.destroy()] has been called on a peer.  (A peer that
    loses its broker in another way is not among the events of this
    model.) *)
Definition peer_destroyed (s : AppState) (peer : N) : bool :=
  bool_decide (PeerDestroy peer ∈ log s).

(** [peer.id]: the id the broker gave the peer when it opened; there is
    none before that, and none once the peer is destroyed. *)
Definition peer_dot_id (s : AppState) (peer : N) : jsval :=
  if peer_destroyed s peer then None else peer_id s !! peer.

(** Lines 277-284: one 'user-joined-video' listener, closing over [peer] and
    [stream].  The result is [None] when the listener throws: [call] on a
    destroyed peer returns nothing, and line 280 then reads a property of
    [undefined], before [setPeers] is reached. *)
Definition on_user_joined_video (peer stream : N) (peerId : jsval)
    (s : AppState) : option AppState :=
  if negb (truthy peerId) || bool_decide (peerId = peer_dot_id s peer) then Some s
  else if peer_destroyed s peer then None
  else
    let peerId := to_string peerId in
    Some (s |> fresh (λ call s,
          s |> perform (PeerCall peer peerId stream call)
            |> set_call_handlers (<[call := peerId]> (call_handlers s))
            |> setPeers (<[peerId := call]>))).

(** Lines 286-298: one 'user-left-video' listener.  The tests of lines 287
    and 292 read through the prototype chain.  Where [videoRefs.current]
    has no element of its own and the chain has a truthy value, line 288
    clears [srcObject] on the value found and line 289 deletes nothing.
    Where [prev] has no connection of its own and the chain has a truthy
    value, that value has no [close], and the copy of line 294 has the
    content of [prev]. *)
Definition on_user_left_video (peerId : jsval) (s : AppState) : AppState :=
  let key := to_string peerId in
  s |> match videoRefs s !! key with
       | Some _ => set_videoRefs (delete key)
       | None =>
           if found_on_prototype s key
           then perform (SrcObjectOnBuiltin key None)
           else λ s, s
       end
    |> match peers s !! key with
       | None => setPeers (λ prev, prev)
       | Some call => λ s, s |> perform (CallClose call) |> setPeers (delete key)
       end.

(** The socket calls the listeners of an event in the order in which they
    were registered; an exception thrown by one of them leaves the loop, and
    the listeners after it are not called. *)
Fixpoint emit_user_joined_video (listeners : list (N * N)) (peerId : jsval)
    (s : AppState) : AppState :=
  match listeners with
  | [] => s
  | l :: rest =>
      match on_user_joined_video l.1 l.2 peerId s with
      | Some s' => emit_user_joined_video rest peerId s'
      | None => s
      end
  end.

Definition socket_user_joined_video (peerId : jsval) (s : AppState) : AppState :=
  emit_user_joined_video (video_listeners s) peerId s.

Definition socket_user_left_video (peerId : jsval) (s : AppState) : AppState :=
  foldl (λ s _, on_user_left_video peerId s) s (video_listeners s).

(** ** Effects *)

(** Lines 320-329: the cleanup of the effect of line 319, run with the
    [myPeer], [myStream] and [peers] that its closure holds. *)
Definition call_teardown (closure : option N * option N * jsobject N)
    (s : AppState) : AppState :=
  let '(myPeer, myStream, peers) := closure in
  s |> match myPeer with Some p => perform (PeerDestroy p) | None => λ s, s end
    |> match myStream with Some st => perform (TracksStop st) | None => λ s, s end
    |> perform_all (CallClose <$> Object_values peers)
    |> set_videoRefs (λ _, ∅)
    |> setInCall false
    |> setPeers (λ _, ∅)
    |> setMyPeer None
    |> setMyStream None.

(** Lines 44-53, run with the values of render [r]. *)
Definition effect_autoselect (r : AppState) (s : AppState) : AppState :=
  match token r with
  | [] => s
  | _ :: _ =>
      if truthy (location_doc r) && bool_decide (0 < length (documents r))%nat then
        match List.find (λ d, bool_decide (_id d = location_doc r)) (documents r) with
        | Some doc => handleSelectDoc (token r) doc s
        | None => s
        end
      else s
  end.

(** Lines 78-89, setup. *)
Definition effect_join_document (r : AppState) (s : AppState) : AppState :=
  match selectedDoc r with
  | None => s |> set_doc_cleanup false
  | Some doc =>
      s |> perform (SocketEmit (join_document (_id doc)))
        |> setContent (doc_content doc)
        |> set_doc_listeners (S (doc_listeners s))
        |> set_doc_cleanup true
  end.

(** Lines 86-88, cleanup: [socket.off('document-updated')]. *)
Definition effect_join_document_cleanup (s : AppState) : AppState :=
  s |> set_doc_listeners 0%nat.

(** Lines 319-331, setup: the cleanup closure of render [r] is installed. *)
Definition effect_call (r : AppState) (s : AppState) : AppState :=
  s |> set_call_cleanup_env (myPeer r, myStream r, peers r).

(** One commit: React has rendered [r]; [prev] is the render before.  The
    cleanups of the effects whose dependencies changed run first, in the
    order of the effects, then their setups.  State set from inside an
    effect is pending until the next render. *)
Definition commit (prev r : AppState) : AppState :=
  let token_changed := bool_decide (token prev ≠ token r) in
  let documents_changed := bool_decide (documents_ver prev ≠ documents_ver r) in
  let selectedDoc_changed := bool_decide (selectedDoc prev ≠ selectedDoc r) in
  r |> when (selectedDoc_changed && doc_cleanup r) effect_join_document_cleanup
    |> when selectedDoc_changed (call_teardown (call_cleanup_env r))
    |> when (token_changed || documents_changed) (effect_autoselect r)
    |> when token_changed (fetchDocuments (token r))
    |> when selectedDoc_changed (effect_join_document r)
    |> when selectedDoc_changed (effect_call r).

(** Rendering after a handler has run: the commit of the new render, and
    the commit of the render that state set by its effects asks for (only
    [effect_autoselect] sets a dependency, and it runs in the first). *)
Definition render (prev s : AppState) : AppState :=
  let s1 := commit prev s in
  commit s s1.

(** The first render: every effect is set up. *)
Definition mount (s0 : AppState) : AppState :=
  let s1 := s0 |> effect_autoselect s0
               |> fetchDocuments (token s0)
               |> effect_join_document s0
               |> effect_call s0 in
  commit s0 s1.

(** Line 13-41: the state a fresh component starts from, given the two
    [localStorage] entries and the [doc] parameter of the page address.
    Line 16 hands a stored user that is not empty to [JSON.parse], which
    throws on a text that is not JSON: the component then renders nothing,
    and there is no first state.  [initial] is the first state in the other
    case, where the stored user is missing, empty or a JSON text; [user]
    then holds that text, standing for the value it denotes. *)
Definition initial (stored_token stored_user : option jsstring)
    (location_doc : jsval) : AppState :=
  mkApp (mkAuth (if truthy stored_token then default [] stored_token else [])
                (if truthy stored_user then stored_user else None)
                stored_token stored_user)
        (mkDocs [] 0 None (Some []) false)
        (mkJoinForm [] [] [])
        (mkCall false None None ∅ ∅)
        (mkEnv 0 false (None, None, ∅) [] ∅ ∅ ∅ 0 location_doc)
        [].

(** ** Events *)

(** What can happen to a mounted component: a user gesture, a settled
    promise resuming a suspended handler (carrying what the handler closed
    over), a socket message, a PeerJS event. *)
Inductive Event :=
| Logout
| FetchDocumentsSettled (r : FetchResult (option (list Doc)))
| SelectDoc (doc : Doc)
| SelectDocSettled (r : FetchResult Doc)
| CreateDoc (title : jsval)
| CreateDocSettled (r : FetchResult Doc)
| DeleteDoc (docId : jsval)
| DeleteDocSettled (docId : jsval) (selectedDoc : option Doc) (r : FetchResult unit)
| JoinInput (value : jsstring)
| JoinDocument
| JoinDocumentSettled (docId : jsstring) (r : FetchResult Doc)
| EditorChange (value : jsval)
| EditorChangeSettled (r : FetchResult unit)
| DocumentUpdated (newContent : jsval)
| JoinVideoCall
| JoinVideoCallSettled (selectedDoc : Doc) (granted : bool)
| PeerOpen (peer : N) (id : jsstring)
| PeerCalled (peer : N) (remote : jsstring)
| CallStream (call : N)
| UserJoinedVideo (peerId : jsval)
| UserLeftVideo (peerId : jsval).

Definition handle (e : Event) (s : AppState) : AppState :=
  match e with
  | Logout => handleLogout s
  | FetchDocumentsSettled r => fetchDocuments_settled r s
  | SelectDoc doc => handleSelectDoc (token s) doc s
  | SelectDocSettled r => handleSelectDoc_settled r s
  | CreateDoc title => handleCreateDoc (token s) title s
  | CreateDocSettled r => handleCreateDoc_settled r s
  | DeleteDoc docId => handleDeleteDoc (token s) docId s
  | DeleteDocSettled docId sel r => handleDeleteDoc_settled docId sel r s
  | JoinInput v => joinInput_onChange v s
  | JoinDocument => handleJoinDocument (token s) s
  | JoinDocumentSettled docId r => handleJoinDocument_settled docId r s
  | EditorChange v => handleEditorChange (token s) v s
  | EditorChangeSettled r => handleEditorChange_settled r s
  | DocumentUpdated c => socket_document_updated c s
  | JoinVideoCall => handleJoinVideoCall s
  | JoinVideoCallSettled d g => handleJoinVideoCall_settled d g s
  | PeerOpen p id => peer_on_open p id s
  | PeerCalled p remote => peer_on_call p remote s
  | CallStream c => call_on_stream c s
  | UserJoinedVideo p => socket_user_joined_video p s
  | UserLeftVideo p => socket_user_left_video p s
  end.

(** The handler runs, then React renders. *)
Definition step (e : Event) (s : AppState) : AppState :=
  render s (handle e s).

Definition run (es : list Event) (s : AppState) : AppState :=
  foldl (λ s e, step e s) s es.

(** ** Observations on traces *)

(** The 'edit-document' events of a trace of effects, as
    [(documentId, content)]. *)
Definition edit_broadcasts (l : list Effect) : list (jsval * jsval) :=
  omap (λ e, match e with
             | SocketEmit (edit_document i c) => Some (i, c)
             | _ => None
             end) l.

(** The values the editor reported, in order. *)
Definition edits (es : list Event) : list jsval :=
  omap (λ e, match e with EditorChange v => Some v | _ => None end) es.

(** An invocation of the local-edit handler, or the rest of one. *)
Definition local_edit_event (e : Event) : Prop :=
  match e with
  | EditorChange _ | EditorChangeSettled _ => True
  | _ => False
  end.

(** ** A session used in the examples *)

Definition docA : Doc :=
  mkDoc 1 (Some (js "doc-A")) (Some (js "A")) (Some (js "alpha")).
Definition docB : Doc :=
  mkDoc 2 (Some (js "doc-B")) (Some (js "B")) (Some (js "beta")).

(** The page is opened with a token in [localStorage]. *)
Definition session0 : AppState :=
  mount (initial (Some (js "tok")) (Some (js "{}")) None).

(** The list of documents has arrived. *)
Definition loaded : AppState :=
  step (FetchDocumentsSettled (Response 200 (Json (Some [docA; docB])))) session0.

(** Document A is open in the editor. *)
Definition editing : AppState :=
  run [SelectDoc docA; SelectDocSettled (Response 200 (Json docA))] loaded.

(** A call is running in document A; peer "p1" has joined. *)
Definition calling : AppState :=
  run [JoinVideoCall; JoinVideoCallSettled docA true; PeerOpen 1 (js "me-id");
       UserJoinedVideo (Some (js "p1"))] editing.

(** The user has moved to document B, and the connection to "p1", opened
    in document A, delivers its stream late: "p1" has a video element and
    no entry in the peers map. *)
Definition orphaned : AppState :=
  run [SelectDoc docB; CallStream 2] calling.

(** The user has moved to document B and back to document A: the second
    switch destroyed the peer of the call, whose 'user-joined-video'
    listener is still registered. *)
Definition returned : AppState :=
  run [SelectDoc docB; SelectDoc docA] calling.

(** A second participant has announced itself under the peer id
    '__proto__'. *)
Definition proto_call : AppState :=
  run [UserJoinedVideo (Some (js "__proto__"))] calling.

(** Two participants have been called in document A, "p1" before "p2", and
    the user has moved to document B: the cleanup closure now installed
    holds the peer, the stream and both connections. *)
Definition moved_on : AppState :=
  run [UserJoinedVideo (Some (js "p2")); SelectDoc docB] calling.

(** ** Further vocabulary *)

(** Line 456: the share link shown above the editor,
    [`${window.location.origin}?doc=${selectedDoc._id}`]. *)
Definition shareLink (origin : jsstring) (doc : Doc) : jsstring :=
  origin ++ js "?doc=" ++ to_string (_id doc).

(** What [call_teardown] does to the outside world, given the closure it
    runs with. *)
Definition teardown_effects (closure : option N * option N * jsobject N)
    : list Effect :=
  let '(myPeer, myStream, peers) := closure in
  match myPeer with Some p => [PeerDestroy p] | None => [] end ++
  match myStream with Some st => [TracksStop st] | None => [] end ++
  (CallClose <$> Object_values peers).

(** What the 'user-left-video' listeners do to the outside world when the
    notification names [key].  The first listener finds what the component
    holds for [key]; the others find nothing of the component's own.  A
    listener closes the connection it finds, and where it finds no video
    element but a value on the prototype chain, it clears [srcObject] on
    that value. *)
Definition left_video_effects (s : AppState) (key : jsstring) : list Effect :=
  let cleared n :=
    if found_on_prototype s key
    then replicate n (SrcObjectOnBuiltin key None) else [] in
  cleared (match videoRefs s !! key with Some _ => 0 | None => 1 end)%nat ++
  match peers s !! key with Some call => [CallClose call] | None => [] end ++
  cleared (length (video_listeners s) - 1)%nat.

(** The socket holds one 'document-updated' listener while a document is
    selected and none otherwise. *)
Definition listening_matches_selection (s : AppState) : Prop :=
  doc_cleanup s = bool_decide (is_Some (selectedDoc s)) ∧
  doc_listeners s = (if doc_cleanup s then 1 else 0)%nat.

(** How many times the camera was granted to a join. *)
Definition granted_joins (es : list Event) : nat :=
  length (omap (λ e, match e with
                     | JoinVideoCallSettled _ true => Some ()
                     | _ => None
                     end) es).

Definition is_remote_update (e : Event) : Prop :=
  match e with DocumentUpdated _ => True | _ => False end.

(** The effects of a render in which only the selection changed: the
    cleanups of the effects of lines 78 and 319, then their setups, with
    the values of render [r]. *)
Definition switch_effects (r : AppState) : AppState :=
  r |> when (doc_cleanup r) effect_join_document_cleanup
    |> call_teardown (call_cleanup_env r)
    |> effect_join_document r
    |> effect_call r.

(** The document that the page address names, as [effect_autoselect] looks
    it up in a list. *)
Definition addressed_doc (location_doc : jsval) (documents : list Doc) : option Doc :=
  if truthy location_doc then
    List.find (λ d, bool_decide (_id d = location_doc)) documents
  else None.

(** [f] does not write the part of the state that [proj] reads. *)
Definition keeps {A : Type} (proj : AppState → A) (f : AppState → AppState) : Prop :=
  ∀ s, proj (f s) = proj s.

(** * Properties *)

(** ** Dictionaries *)

Lemma own_lookup_insert_eq {V} (l : list (jsstring * V)) k v :
  own_lookup k (own_insert k v l) = Some v.
Proof.
  induction l as [|[k' v'] l IH]; simpl.
  - by rewrite decide_True.
  - destruct (decide (k = k')) as [->|Hne]; simpl.
    + by rewrite decide_True.
    + by rewrite decide_False.
Qed.

Lemma own_lookup_delete_eq {V} (l : list (jsstring * V)) k :
  own_lookup k (own_delete k l) = None.
Proof.
  unfold own_delete. induction l as [|[k' v'] l IH]; [done|].
  rewrite filter_cons. simpl. destruct (decide (k' ≠ k)) as [Hne|Heq]; simpl.
  - rewrite decide_False by (intros ->; by apply Hne). done.
  - done.
Qed.

Lemma own_delete_id {V} (l : list (jsstring * V)) k :
  own_lookup k l = None → own_delete k l = l.
Proof.
  unfold own_delete. induction l as [|[k' v'] l IH]; [done|]. simpl.
  destruct (decide (k = k')) as [->|Hne]; [discriminate|]. intros H.
  rewrite filter_cons_True by (simpl; congruence). by rewrite IH.
Qed.

Lemma own_delete_insert_eq {V} (l : list (jsstring * V)) k v :
  own_delete k (own_insert k v l) = own_delete k l.
Proof.
  unfold own_delete. induction l as [|[k' v'] l IH]; simpl.
  - rewrite filter_cons_False by (simpl; intros H; by apply H). done.
  - destruct (decide (k = k')) as [->|Hne].
    + rewrite !filter_cons_False by (simpl; intros H; by apply H). done.
    + rewrite !filter_cons_True by (simpl; congruence). by rewrite IH.
Qed.

Lemma obj_lookup_insert_eq {V} (o : jsobject V) k v : <[k:=v]> o !! k = Some v.
Proof. apply own_lookup_insert_eq. Qed.

Lemma obj_lookup_delete_eq {V} (o : jsobject V) k : delete k o !! k = None.
Proof. apply own_lookup_delete_eq. Qed.

Lemma obj_delete_id {V} (o : jsobject V) k : o !! k = None → delete k o = o.
Proof.
  destruct o as [l]. intros H. unfold delete, jsobject_delete. simpl.
  f_equal. by apply own_delete_id.
Qed.

Lemma obj_delete_insert_eq {V} (o : jsobject V) k v :
  delete k (<[k:=v]> o) = delete k o.
Proof.
  destruct o as [l]. unfold delete, insert, jsobject_delete, jsobject_insert. simpl.
  f_equal. apply own_delete_insert_eq.
Qed.

(** ** Rendering *)

Lemma perform_all_app l s : log (perform_all l s) = log s ++ l.
Proof.
  revert s. induction l as [|e l IH]; intros s; simpl.
  - by rewrite app_nil_r.
  - rewrite IH. simpl. by rewrite <- app_assoc.
Qed.

Lemma perform_all_frame l s :
  auth (perform_all l s) = auth s ∧ docs (perform_all l s) = docs s ∧
  joinForm (perform_all l s) = joinForm s ∧ call (perform_all l s) = call s ∧
  env (perform_all l s) = env s.
Proof.
  revert s. induction l as [|e l IH]; intros s; simpl; [done|].
  destruct (IH (perform e s)) as (-> & -> & -> & -> & ->). done.
Qed.

(** A stream that is added writes the video elements, or a built-in
    object, and nothing else. *)
Lemma addPeerStream_frame peerId stream isSelf s :
  auth (addPeerStream peerId stream isSelf s) = auth s ∧
  docs (addPeerStream peerId stream isSelf s) = docs s ∧
  joinForm (addPeerStream peerId stream isSelf s) = joinForm s ∧
  env (addPeerStream peerId stream isSelf s) = env s ∧
  inCall (addPeerStream peerId stream isSelf s) = inCall s ∧
  myPeer (addPeerStream peerId stream isSelf s) = myPeer s ∧
  myStream (addPeerStream peerId stream isSelf s) = myStream s ∧
  peers (addPeerStream peerId stream isSelf s) = peers s.
Proof. unfold addPeerStream. repeat case_match; done. Qed.

Ltac addPeerStream_frame :=
  unfold token, documents_ver, selectedDoc, content, isRemote, documents,
    doc_listeners, doc_cleanup, video_listeners, peer_id, next_handle,
    call_handlers, peer_handlers, location_doc, call_cleanup_env;
  match goal with
  | |- context [addPeerStream ?k ?st ?b ?x] =>
      let Ha := fresh in let Hd := fresh in let Hj := fresh in
      let He := fresh in let Hc := fresh in let Hp := fresh in
      let Hs := fresh in let Hps := fresh in
      destruct (addPeerStream_frame k st b x)
        as (Ha & Hd & Hj & He & Hc & Hp & Hs & Hps);
      rewrite ?Ha, ?Hd, ?Hj, ?He, ?Hc, ?Hp, ?Hs, ?Hps;
      clear Ha Hd Hj He Hc Hp Hs Hps
  end.

(** A render in which no dependency changed runs no effect. *)
Lemma commit_same prev r :
  token prev = token r → documents_ver prev = documents_ver r →
  selectedDoc prev = selectedDoc r → commit prev r = r.
Proof.
  intros Ht Hd Hs. unfold commit.
  rewrite (bool_decide_eq_false_2 (token prev ≠ token r)) by auto.
  rewrite (bool_decide_eq_false_2 (documents_ver prev ≠ documents_ver r)) by auto.
  rewrite (bool_decide_eq_false_2 (selectedDoc prev ≠ selectedDoc r)) by auto.
  reflexivity.
Qed.

Lemma render_same prev r :
  token prev = token r → documents_ver prev = documents_ver r →
  selectedDoc prev = selectedDoc r → render prev r = r.
Proof.
  intros Ht Hd Hs. unfold render. rewrite (commit_same prev r) by done.
  by apply commit_same.
Qed.

Lemma call_teardown_frame cl s :
  auth (call_teardown cl s) = auth s ∧ docs (call_teardown cl s) = docs s ∧
  joinForm (call_teardown cl s) = joinForm s.
Proof.
  destruct cl as [[mp ms] ps]. unfold call_teardown. cbn.
  match goal with
  | |- context [perform_all ?l ?s] =>
      destruct (perform_all_frame l s) as (-> & -> & -> & _)
  end.
  destruct mp, ms; done.
Qed.

Lemma fetchDocuments_frame t s :
  auth (fetchDocuments t s) = auth s ∧ docs (fetchDocuments t s) = docs s.
Proof. unfold fetchDocuments. by destruct t. Qed.

(** What each effect leaves alone. *)
Lemma effect_autoselect_auth r s : auth (effect_autoselect r s) = auth s.
Proof. unfold effect_autoselect. repeat case_match; done. Qed.
Lemma effect_join_document_auth r s : auth (effect_join_document r s) = auth s.
Proof. unfold effect_join_document. by case_match. Qed.
Lemma effect_call_auth r s : auth (effect_call r s) = auth s.
Proof. done. Qed.
Lemma effect_join_document_cleanup_auth s : auth (effect_join_document_cleanup s) = auth s.
Proof. done. Qed.
Lemma call_teardown_auth cl s : auth (call_teardown cl s) = auth s.
Proof. apply call_teardown_frame. Qed.
Lemma fetchDocuments_auth t s : auth (fetchDocuments t s) = auth s.
Proof. apply fetchDocuments_frame. Qed.

Lemma effect_autoselect_documents r s :
  documents (effect_autoselect r s) = documents s.
Proof. unfold effect_autoselect. repeat case_match; done. Qed.
Lemma effect_join_document_documents r s :
  documents (effect_join_document r s) = documents s.
Proof. unfold effect_join_document. by case_match. Qed.
Lemma effect_call_documents r s : documents (effect_call r s) = documents s.
Proof. done. Qed.
Lemma effect_join_document_cleanup_documents s :
  documents (effect_join_document_cleanup s) = documents s.
Proof. done. Qed.
Lemma call_teardown_documents cl s : documents (call_teardown cl s) = documents s.
Proof. unfold documents. by rewrite (proj1 (proj2 (call_teardown_frame cl s))). Qed.
Lemma fetchDocuments_documents t s : documents (fetchDocuments t s) = documents s.
Proof. unfold documents. by rewrite (proj2 (fetchDocuments_frame t s)). Qed.

Ltac split_commit :=
  unfold commit, when;
  repeat match goal with
  | |- context [if ?b then _ else _] => destruct b
  end; cbn beta.

(** Effects never touch the credentials. *)
Lemma commit_auth prev r : auth (commit prev r) = auth r.
Proof.
  split_commit;
  rewrite ?effect_call_auth, ?effect_join_document_auth, ?fetchDocuments_auth,
    ?effect_autoselect_auth, ?call_teardown_auth,
    ?effect_join_document_cleanup_auth; done.
Qed.

Lemma render_auth prev s : auth (render prev s) = auth s.
Proof. unfold render. by rewrite !commit_auth. Qed.

(** Effects never touch the list of documents. *)
Lemma commit_documents prev r : documents (commit prev r) = documents r.
Proof.
  split_commit;
  rewrite ?effect_call_documents, ?effect_join_document_documents,
    ?fetchDocuments_documents, ?effect_autoselect_documents,
    ?call_teardown_documents, ?effect_join_document_cleanup_documents; done.
Qed.

Lemma render_documents prev s : documents (render prev s) = documents s.
Proof. unfold render. by rewrite !commit_documents. Qed.
(* ------------------------------------------------------------------ *)

Lemma startsWith_true sep s :
  startsWith sep s = true ↔ ∃ b, s = sep ++ b.
Proof.
  revert s. induction sep as [|x sep IH]; intros s; simpl.
  - split; eauto.
  - destruct s as [|y s].
    + split; [discriminate | intros [b Hb]; discriminate].
    + destruct (decide (x = y)) as [->|Hne].
      * rewrite IH. split; intros [b Hb]; exists b; simpl in *; congruence.
      * split; [discriminate | intros [b Hb]; simpl in Hb; congruence].
Qed.

Lemma startsWith_drop sep s :
  startsWith sep s = true → s = sep ++ drop (length sep) s.
Proof.
  intros [b ->]%startsWith_true. by rewrite drop_app_length.
Qed.

Lemma cut_Some sep s a b :
  cut sep s = Some (a, b) → leftmost_cut sep s a b.
Proof.
  revert a b. induction s as [|c s IH]; intros a b; simpl.
  - destruct (startsWith sep []) eqn:E; [|discriminate].
    intros [= <- <-]. split; [by apply startsWith_drop | simpl; lia].
  - destruct (startsWith sep (c :: s)) eqn:E.
    + intros [= <- <-]. split; [by apply (startsWith_drop sep (c :: s)) | simpl; lia].
    + destruct (cut sep s) as [[a0 b0]|] eqn:C; [|discriminate].
      intros [= <- <-]. destruct (IH _ _ eq_refl) as [Hs Hmin]. split.
      * simpl. by rewrite <- Hs.
      * intros [|c' a'] b' H'.
        -- simpl in H'. assert (startsWith sep (c :: s) = true); [|congruence].
           apply startsWith_true. eauto.
        -- simpl in H'. injection H' as -> H'. simpl.
           specialize (Hmin _ _ H'). lia.
Qed.

Lemma cut_None sep s : cut sep s = None → ¬ occurs sep s.
Proof.
  induction s as [|c s IH]; simpl.
  - destruct (startsWith sep []) eqn:E; [discriminate|].
    intros _ (a & b & H). destruct a; simpl in H.
    + assert (startsWith sep [] = true); [|congruence].
      apply startsWith_true. eauto.
    + discriminate.
  - destruct (startsWith sep (c :: s)) eqn:E; [discriminate|].
    destruct (cut sep s) as [[a0 b0]|] eqn:C; [discriminate|].
    intros _ (a & b & H). destruct a as [|c' a]; simpl in H.
    + assert (startsWith sep (c :: s) = true); [|congruence].
      apply startsWith_true. eauto.
    + injection H as -> H. apply IH; [done|]. by exists a, b.
Qed.

Lemma leftmost_cut_unique sep s a b a' b' :
  leftmost_cut sep s a b → leftmost_cut sep s a' b' → a = a' ∧ b = b'.
Proof.
  intros [H1 M1] [H2 M2].
  assert (length a = length a') as Hlen.
  { specialize (M1 _ _ H2). specialize (M2 _ _ H1). lia. }
  rewrite H1 in H2. apply app_inj_1 in H2 as [-> H2]; [|done].
  by apply app_inv_head in H2.
Qed.

Lemma cut_leftmost sep s a b :
  leftmost_cut sep s a b → cut sep s = Some (a, b).
Proof.
  intros H. destruct (cut sep s) as [[a0 b0]|] eqn:C.
  - apply cut_Some in C. by destruct (leftmost_cut_unique _ _ _ _ _ _ C H) as [-> ->].
  - apply cut_None in C. destruct C. destruct H as [H _]. by exists a, b.
Qed.

Lemma includes_true sep s : includes sep s = true ↔ occurs sep s.
Proof.
  unfold includes. destruct (cut sep s) as [[a b]|] eqn:C.
  - split; [|done]. intros _. apply cut_Some in C as [C _]. by exists a, b.
  - split; [done|]. intros H. by apply cut_None in C.
Qed.

Lemma includes_false sep s : includes sep s = false ↔ ¬ occurs sep s.
Proof.
  rewrite <- includes_true. destruct (includes sep s); naive_solver.
Qed.

(** The first piece of a split is the text up to the first separator. *)
Lemma split_rounds_head n sep b :
  sep ≠ [] → (length b ≤ n)%nat →
  ∃ m, split_rounds n sep b !! 0%nat = Some m ∧ up_to sep b m.
Proof.
  intros Hsep Hn. destruct n as [|n]; simpl.
  - destruct b; [|simpl in Hn; lia]. exists []. split; [done|]. left. split; [|done].
    intros (a & b & H). destruct a, sep; simpl in H; congruence.
  - destruct (cut sep b) as [[m r]|] eqn:C.
    + exists m. split; [done|]. right. exists r. by apply cut_Some.
    + exists b. split; [done|]. left. split; [by apply cut_None | done].
Qed.

Lemma split_second sep s a b :
  sep ≠ [] → leftmost_cut sep s a b →
  ∃ m, split sep s !! 1%nat = Some m ∧ up_to sep b m.
Proof.
  intros Hsep H. pose proof (cut_leftmost _ _ _ _ H) as C.
  destruct H as [Hs _]. unfold split.
  assert (length s = S (length a + (length sep - 1) + length b)) as Hlen.
  { rewrite Hs, !length_app. destruct sep; [done|]. simpl. lia. }
  rewrite Hlen. simpl. rewrite C. simpl.
  apply split_rounds_head; [done | lia].
Qed.

(** ** Resolving a join link *)

Lemma qdoc_nonempty : qdoc ≠ [].
Proof. discriminate. Qed.

Lemma documents_seg_nonempty : documents_seg ≠ [].
Proof. discriminate. Qed.

Lemma resolve_nonblank link :
  trim link ≠ [] →
  resolveJoinLink link =
    match handleJoinDocument_docId link with
    | Some (c :: r) => DocId (c :: r)
    | _ => InvalidLink
    end.
Proof. unfold resolveJoinLink. simpl. by destruct (trim link). Qed.

(** C9 (as amended).  A blank link is refused before it is parsed.
    Otherwise: when the link contains '?doc=', the id is the text between
    the leftmost '?doc=' and the next one (or the end of the link when
    there is no other); when it contains no '?doc=' but contains
    '/documents/', the id is the text between the leftmost '/documents/'
    and the next one (or the end); when it contains neither, the id is the
    trimmed link.  An empty id is refused as an invalid link.  Both
    'https://host/?doc=abc123' and 'https://host/documents/abc123' resolve
    to 'abc123'. *)
Theorem join_link_resolution (link a b : jsstring) :
  (trim link = [] → resolveJoinLink link = EnterLink) ∧
  (trim link ≠ [] →
     (leftmost_cut qdoc link a b →
        ∃ m, up_to qdoc b m ∧ resolveJoinLink link = id_or_invalid m) ∧
     (¬ occurs qdoc link → leftmost_cut documents_seg link a b →
        ∃ m, up_to documents_seg b m ∧ resolveJoinLink link = id_or_invalid m) ∧
     (¬ occurs qdoc link → ¬ occurs documents_seg link →
        resolveJoinLink link = DocId (trim link))) ∧
  resolveJoinLink (js "https://host/?doc=abc123") = DocId (js "abc123") ∧
  resolveJoinLink (js "https://host/documents/abc123") = DocId (js "abc123").
Proof.
  split; [|split; [|split; vm_compute; reflexivity]].
  - intros H. unfold resolveJoinLink. by rewrite H.
  - intros Hne. rewrite (resolve_nonblank link Hne).
    unfold handleJoinDocument_docId. repeat split.
    + intros Hcut.
      assert (includes qdoc link = true) as ->.
      { apply includes_true. destruct Hcut as [-> _]. by exists a, b. }
      destruct (split_second _ _ _ _ qdoc_nonempty Hcut) as (m & -> & Hm).
      exists m. split; [done|]. by destruct m.
    + intros Hq Hcut. apply includes_false in Hq. rewrite Hq.
      assert (includes documents_seg link = true) as ->.
      { apply includes_true. destruct Hcut as [-> _]. by exists a, b. }
      destruct (split_second _ _ _ _ documents_seg_nonempty Hcut) as (m & -> & Hm).
      exists m. split; [done|]. by destruct m.
    + intros Hq Hd. apply includes_false in Hq, Hd. rewrite Hq, Hd.
      by destruct (trim link).
Qed.

(** The three branches of [join_link_resolution] at concrete links: a link
    with two '?doc=', a link with '/documents/' only, a bare id between
    blanks. *)
Lemma join_link_resolution_witness :
  (∃ m, up_to qdoc (js "b?doc=c") m ∧
        resolveJoinLink (js "a?doc=b?doc=c") = id_or_invalid m) ∧
  (∃ m, up_to documents_seg (js "abc") m ∧
        resolveJoinLink (js "h/documents/abc") = id_or_invalid m) ∧
  resolveJoinLink (js " abc ") = DocId (trim (js " abc ")) ∧
  resolveJoinLink (js "  ") = EnterLink.
Proof.
  split; [|split; [|split]].
  - apply (join_link_resolution (js "a?doc=b?doc=c") (js "a") (js "b?doc=c")).
    + vm_compute. discriminate.
    + apply cut_Some. vm_compute. reflexivity.
  - apply (join_link_resolution (js "h/documents/abc") (js "h") (js "abc")).
    + vm_compute. discriminate.
    + apply includes_false. vm_compute. reflexivity.
    + apply cut_Some. vm_compute. reflexivity.
  - apply (join_link_resolution (js " abc ") [] []).
    + vm_compute. discriminate.
    + apply includes_false. vm_compute. reflexivity.
    + apply includes_false. vm_compute. reflexivity.
  - apply (join_link_resolution (js "  ") [] []). vm_compute. reflexivity.
Defined.

(** C9, as stated, fails.  The link 'a?doc=b?doc=c' contains '?doc=' and
    resolves to 'b', which is not what follows any of its '?doc='; the
    link 'https://host/documents/abc?doc=x' contains '/documents/' and
    resolves to 'x', which is not what follows its '/documents/'. *)
Lemma join_link_not_the_rest_of_the_link :
  (occurs qdoc (js "a?doc=b?doc=c") ∧
   ∀ a b, js "a?doc=b?doc=c" = a ++ qdoc ++ b →
          resolveJoinLink (js "a?doc=b?doc=c") ≠ DocId b) ∧
  (occurs documents_seg (js "https://host/documents/abc?doc=x") ∧
   ∀ a b, js "https://host/documents/abc?doc=x" = a ++ documents_seg ++ b →
          resolveJoinLink (js "https://host/documents/abc?doc=x") ≠ DocId b).
Proof.
  split; split.
  - by exists (js "a"), (js "b?doc=c").
  - intros a b H E.
    assert (resolveJoinLink (js "a?doc=b?doc=c") = DocId (js "b")) as R
      by (vm_compute; reflexivity).
    rewrite R in E. injection E as <-.
    apply (f_equal (λ l, head (rev l))) in H.
    rewrite !rev_app_distr in H. vm_compute in H. discriminate.
  - by exists (js "https://host"), (js "abc?doc=x").
  - intros a b H E.
    assert (resolveJoinLink (js "https://host/documents/abc?doc=x") = DocId (js "x")) as R
      by (vm_compute; reflexivity).
    rewrite R in E. injection E as <-.
    apply (f_equal (λ l, rev l !! 1%nat)) in H.
    rewrite !rev_app_distr in H. vm_compute in H. discriminate.
Qed.

(** ** Local edits and remote updates *)

Lemma step_EditorChange_local s d v :
  selectedDoc s = Some d → isRemote s = false →
  step (EditorChange v) s =
    (s |> setContent v
       |> perform (SocketEmit (edit_document (_id d) v))
       |> perform (Fetch PUT (ApiDocument (_id d)) (token s) (Some v))).
Proof.
  intros Hd Hr. unfold step. cbn [handle]. unfold handleEditorChange.
  change (selectedDoc (setContent v s)) with (selectedDoc s).
  change (isRemote (setContent v s)) with (isRemote s).
  rewrite Hd, Hr. cbn [negb]. by apply render_same.
Qed.

Lemma step_EditorChange_remote s d v :
  selectedDoc s = Some d → isRemote s = true →
  step (EditorChange v) s = (s |> setContent v |> set_isRemote false).
Proof.
  intros Hd Hr. unfold step. cbn [handle]. unfold handleEditorChange.
  change (selectedDoc (setContent v s)) with (selectedDoc s).
  change (isRemote (setContent v s)) with (isRemote s).
  rewrite Hd, Hr. cbn [negb]. by apply render_same.
Qed.

Lemma step_EditorChangeSettled s r :
  step (EditorChangeSettled r) s = set_isRemote false s.
Proof. unfold step. cbn [handle]. by apply render_same. Qed.

Lemma iter_on_document_updated n c s :
  Nat.iter (S n) (on_document_updated c) s = on_document_updated c s.
Proof. induction n as [|n IH]; [done|]. simpl in *. by rewrite IH. Qed.

Lemma step_DocumentUpdated s c :
  (0 < doc_listeners s)%nat →
  step (DocumentUpdated c) s = (s |> set_isRemote true |> setContent c).
Proof.
  intros H. unfold step. cbn [handle]. unfold socket_document_updated.
  destruct (doc_listeners s) as [|n]; [lia|].
  rewrite iter_on_document_updated. by apply render_same.
Qed.

(** C2.  While a document is selected and the suppression flag is down, a
    sequence of invocations of the local-edit handler (with the
    completions of their saves interleaved in any way) emits one
    'edit-document' per invocation, carrying the id of the document and the
    value of that edit, in order. *)
Theorem local_edits_broadcast_once (es : list Event) (s : AppState) (d : Doc) :
  selectedDoc s = Some d → isRemote s = false → Forall local_edit_event es →
  edit_broadcasts (log (run es s)) =
    edit_broadcasts (log s) ++ ((λ v, (_id d, v)) <$> edits es).
Proof.
  intros Hd Hr Hes. revert s Hd Hr.
  induction Hes as [|e es He _ IH]; intros s Hd Hr.
  - simpl. by rewrite app_nil_r.
  - unfold run in *. cbn [foldl]. destruct e; try done.
    + rewrite (step_EditorChange_local s d value Hd Hr).
      rewrite IH by done. cbn [log perform setContent with_docs].
      unfold edit_broadcasts. rewrite !omap_app. cbn. by rewrite <- !app_assoc.
    + rewrite step_EditorChangeSettled. rewrite IH by done. done.
Qed.

Lemma local_edits_broadcast_once_witness :
  edit_broadcasts
    (log (run [EditorChange (Some (js "x")); EditorChangeSettled (Rejected []);
               EditorChange (Some (js "xy"))] editing)) =
  edit_broadcasts (log editing) ++
    [(_id docA, Some (js "x")); (_id docA, Some (js "xy"))].
Proof.
  apply (local_edits_broadcast_once
           [EditorChange (Some (js "x")); EditorChangeSettled (Rejected []);
            EditorChange (Some (js "xy"))] editing docA).
  - vm_compute. reflexivity.
  - vm_compute. reflexivity.
  - repeat constructor.
Defined.

(** When no save is in flight, a remote update does suppress the next
    invocation of the local-edit handler and only that one. *)
Lemma remote_update_suppresses_next_edit s d c v w :
  selectedDoc s = Some d → (0 < doc_listeners s)%nat →
  let s1 := step (DocumentUpdated c) s in
  let s2 := step (EditorChange v) s1 in
  let s3 := step (EditorChange w) s2 in
  isRemote s1 = true ∧ content s1 = c ∧ log s1 = log s ∧
  isRemote s2 = false ∧ log s2 = log s ∧
  log s3 = log s ++ [SocketEmit (edit_document (_id d) w);
                     Fetch PUT (ApiDocument (_id d)) (token s) (Some w)].
Proof.
  intros Hd Hl. cbn zeta.
  rewrite (step_DocumentUpdated s c Hl).
  rewrite (step_EditorChange_remote _ d v) by done.
  rewrite (step_EditorChange_local _ d w) by done.
  cbn. by rewrite <- app_assoc.
Qed.

(** C1 fails on the code.  The user types while document A is open; the
    save of that edit is still in flight when a remote update arrives; the
    save then settles, and the rest of the first invocation lowers the flag
    that the remote update raised.  The editor now reports the remote
    content, and the handler broadcasts it. *)
Theorem echo_broadcast_when_save_settles_after_remote_update :
  let s1 := step (EditorChange (Some (js "alpha!"))) editing in
  let s2 := step (DocumentUpdated (Some (js "remote"))) s1 in
  let s3 := step (EditorChangeSettled (Response 200 (Json ()))) s2 in
  let s4 := step (EditorChange (Some (js "remote"))) s3 in
  isRemote s2 = true ∧ content s2 = Some (js "remote") ∧
  isRemote s3 = false ∧
  log s4 = log s3 ++
    [SocketEmit (edit_document (Some (js "doc-A")) (Some (js "remote")));
     Fetch PUT (ApiDocument (Some (js "doc-A"))) (js "tok") (Some (Some (js "remote")))].
Proof. vm_compute. done. Qed.

(** ** The video call *)

Lemma on_user_joined_video_keeps peer stream peerId s s' :
  on_user_joined_video peer stream peerId s = Some s' →
  auth s' = auth s ∧ docs s' = docs s ∧
  doc_listeners s' = doc_listeners s ∧ doc_cleanup s' = doc_cleanup s ∧
  video_listeners s' = video_listeners s ∧ peer_id s' = peer_id s.
Proof.
  unfold on_user_joined_video. repeat case_match; intros [= <-]; done.
Qed.

Lemma step_UserJoinedVideo s peer stream peerId :
  video_listeners s = [(peer, stream)] →
  step (UserJoinedVideo peerId) s =
    default s (on_user_joined_video peer stream peerId s).
Proof.
  intros H. unfold step. cbn [handle]. unfold socket_user_joined_video.
  rewrite H. cbn [emit_user_joined_video fst snd].
  destruct (on_user_joined_video peer stream peerId s) as [s'|] eqn:E.
  - change (render s s' = s').
    destruct (on_user_joined_video_keeps _ _ _ _ _ E) as (Ha & Hd & _).
    apply render_same; unfold token, documents_ver, selectedDoc; by rewrite ?Ha, ?Hd.
  - change (render s s = s). by apply render_same.
Qed.

Lemma on_user_joined_video_calls s peer stream pid :
  pid ≠ [] → peer_id s !! peer ≠ Some pid → PeerDestroy peer ∉ log s →
  on_user_joined_video peer stream (Some pid) s =
    Some (s |> set_next_handle (N.succ (next_handle s))
            |> perform (PeerCall peer pid stream (next_handle s))
            |> set_call_handlers (<[next_handle s := pid]> (call_handlers s))
            |> setPeers (<[pid := next_handle s]>)).
Proof.
  intros Hne Hself Hlive. unfold on_user_joined_video, peer_dot_id, peer_destroyed.
  rewrite (bool_decide_eq_false_2 _ Hlive).
  destruct pid as [|c pid]; [done|]. cbn [truthy negb orb].
  rewrite bool_decide_eq_false_2 by (intros E; by rewrite <- E in Hself).
  done.
Qed.

Lemma on_user_joined_video_ignored s peer stream peerId :
  truthy peerId = false ∨ peerId = peer_id s !! peer ∨ PeerDestroy peer ∈ log s →
  default s (on_user_joined_video peer stream peerId s) = s.
Proof.
  unfold on_user_joined_video, peer_dot_id, peer_destroyed.
  intros [H | [H | H]].
  - by rewrite H.
  - destruct (negb (truthy peerId)); [done|]. cbn [orb].
    destruct (bool_decide (PeerDestroy peer ∈ log s)).
    + by case_match.
    + by rewrite (bool_decide_eq_true_2 _ H).
  - rewrite (bool_decide_eq_true_2 _ H). by repeat case_match.
Qed.




Lemma step_JoinVideoCall s : step JoinVideoCall s = handleJoinVideoCall s.
Proof.
  unfold step. cbn [handle].
  apply render_same; unfold handleJoinVideoCall; by case_match.
Qed.

Lemma step_JoinVideoCallSettled s d g :
  step (JoinVideoCallSettled d g) s = handleJoinVideoCall_settled d g s.
Proof.
  unfold step. cbn [handle].
  apply render_same; unfold handleJoinVideoCall_settled, fresh;
    destruct g; try done; by addPeerStream_frame.
Qed.

(** C4 (as amended).  Joining a call raises [inCall] at once, before the
    request for the camera and microphone is answered: the handler raises
    the flag and issues the request, and holds no stream and no peer yet.
    A join while [inCall] is up, or with no document selected, does
    nothing.  When the request is refused the flag is lowered again; when
    it is granted the flag stays up, and the stream and the peer are
    stored. *)
Theorem join_video_call_raises_flag_first (s : AppState) (d : Doc) :
  (inCall s = false → selectedDoc s = Some d →
     let s1 := step JoinVideoCall s in
     inCall s1 = true ∧ log s1 = log s ++ [GetUserMedia] ∧
     myStream s1 = myStream s ∧ myPeer s1 = myPeer s) ∧
  (inCall s = true ∨ selectedDoc s = None → step JoinVideoCall s = s) ∧
  inCall (step (JoinVideoCallSettled d false) s) = false ∧
  (inCall s = true →
     let s2 := step (JoinVideoCallSettled d true) s in
     inCall s2 = true ∧ myStream s2 = Some (next_handle s) ∧
     myPeer s2 = Some (N.succ (next_handle s))).
Proof.
  rewrite step_JoinVideoCall, !step_JoinVideoCallSettled.
  unfold handleJoinVideoCall. split; [|split; [|split]].
  - intros Hc Hd. cbn zeta. rewrite Hc, Hd. done.
  - intros [-> | ->]; [done|]. by rewrite orb_true_r.
  - done.
  - intros Hc. cbn zeta. unfold handleJoinVideoCall_settled, fresh.
    by addPeerStream_frame.
Qed.

Lemma join_video_call_raises_flag_first_witness :
  inCall (step JoinVideoCall editing) = true ∧
  step JoinVideoCall (step JoinVideoCall editing) = step JoinVideoCall editing ∧
  myStream (step (JoinVideoCallSettled docA true) (step JoinVideoCall editing)) =
    Some (next_handle (step JoinVideoCall editing)).
Proof.
  split; [|split].
  - apply (join_video_call_raises_flag_first editing docA);
      vm_compute; reflexivity.
  - apply (join_video_call_raises_flag_first (step JoinVideoCall editing) docA).
    left. vm_compute. reflexivity.
  - apply (join_video_call_raises_flag_first (step JoinVideoCall editing) docA).
    vm_compute. reflexivity.
Defined.

(** C4, as stated, fails: right after the join handler has run, [inCall] is
    up although the camera has only been asked for, and when the request is
    then refused the flag has been up without media ever being acquired. *)
Lemma in_call_before_media :
  let s1 := step JoinVideoCall editing in
  let s2 := step (JoinVideoCallSettled docA false) s1 in
  inCall editing = false ∧
  inCall s1 = true ∧ myStream s1 = None ∧ log s1 = log editing ++ [GetUserMedia] ∧
  inCall s2 = false ∧ myStream s2 = None ∧
  log s2 = log s1 ++ [Alert (js "Could not access camera/microphone.")].
Proof. vm_compute. done. Qed.

(** C5 fails on the code.  A call runs in document A (peer 1, stream 0,
    connection 2 to "p1") and the user selects document B.  The cleanup
    that runs is the one installed when A was selected, when there was no
    peer, no stream and no connection: it destroys, stops and closes
    nothing, and 'join-document' for B goes out with the call's resources
    alive.  They are released by the cleanup of the next switch. *)
Theorem call_resources_survive_document_switch :
  let s := step (SelectDoc docB) calling in
  let s' := step (SelectDoc docA) s in
  (inCall calling = true ∧ myPeer calling = Some 1 ∧ myStream calling = Some 0 ∧
   peers calling !! js "p1" = Some 2 ∧
   call_cleanup_env calling = (None, None, ∅)) ∧
  log s = log calling ++
    [Fetch GET (ApiDocument (Some (js "doc-B"))) (js "tok") None;
     SocketEmit (join_document (Some (js "doc-B")))] ∧
  call_cleanup_env s = (Some 1, Some 0, peers calling) ∧
  log s' = log s ++
    [Fetch GET (ApiDocument (Some (js "doc-A"))) (js "tok") None;
     PeerDestroy 1; TracksStop 0; CallClose 2;
     SocketEmit (join_document (Some (js "doc-A")))].
Proof. vm_compute. done. Qed.

(** ** Documents *)

Lemma step_SelectDocSettled s r :
  step (SelectDocSettled r) s = handleSelectDoc_settled r s.
Proof.
  unfold step. cbn [handle].
  apply render_same; unfold handleSelectDoc_settled; by repeat case_match.
Qed.

(** C6 (as amended).  When the fetch started by selecting a document
    settles, its result is written to the buffer without looking at which
    document is selected by then: the content of the body when there is
    one, the empty string otherwise. *)
Theorem select_doc_result_applied_unchecked (s : AppState)
    (st : N) (data : Doc) (message : jsstring) :
  let s1 := step (SelectDocSettled (Response st (Json data))) s in
  let s2 := step (SelectDocSettled (Response st (JsonError message))) s in
  let s3 := step (SelectDocSettled (Rejected message)) s in
  (content s1 = doc_content data ∧ selectedDoc s1 = selectedDoc s) ∧
  (content s2 = Some [] ∧ selectedDoc s2 = selectedDoc s) ∧
  (content s3 = Some [] ∧ selectedDoc s3 = selectedDoc s).
Proof. rewrite !step_SelectDocSettled. done. Qed.

(** C6, as stated, fails: the user selects A, then B; B's content arrives,
    then A's.  B is the selected document and the buffer shows A. *)
Lemma stale_fetch_overwrites_buffer :
  let s := run [SelectDoc docA; SelectDoc docB;
                SelectDocSettled (Response 200 (Json docB));
                SelectDocSettled (Response 200 (Json docA))] loaded in
  selectedDoc s = Some docB ∧ content s = doc_content docA ∧
  doc_content docA ≠ doc_content docB.
Proof. vm_compute. done. Qed.

Lemma step_JoinDocumentSettled_401 s docId body :
  step (JoinDocumentSettled docId (Response 401 body)) s =
    join_failed (js "You do not have access to this document.") s.
Proof. unfold step. cbn [handle]. by apply render_same. Qed.

(** C7 (as amended).  A 401 in answer to the request for the list of
    documents logs the user out: the token and the user are cleared, in
    the state and in [localStorage], and the list is emptied.  A 401 in
    answer to the fetch of a join link leaves the credentials alone and
    reports 'You do not have access to this document.' *)
Theorem unauthorized_response (s : AppState) (docId : jsstring)
    (docs_body : JsonResult (option (list Doc))) (doc_body : JsonResult Doc) :
  let s1 := step (FetchDocumentsSettled (Response 401 docs_body)) s in
  let s2 := step (JoinDocumentSettled docId (Response 401 doc_body)) s in
  (token s1 = [] ∧ user s1 = None ∧ ls_token s1 = None ∧ ls_user s1 = None ∧
   documents s1 = []) ∧
  (auth s2 = auth s ∧
   joinError s2 = js "You do not have access to this document.").
Proof.
  cbn zeta. rewrite step_JoinDocumentSettled_401. split; [|done].
  unfold step, token, user, ls_token, ls_user.
  rewrite render_documents, render_auth. done.
Qed.

(** C7, as stated, fails: the fetch of a join link is answered with 401
    and the token and the user are still stored. *)
Lemma join_link_401_keeps_session :
  let s := run [JoinInput (js "doc-B"); JoinDocument;
                JoinDocumentSettled (js "doc-B") (Response 401 (JsonError []))] loaded in
  log (step JoinDocument (step (JoinInput (js "doc-B")) loaded)) =
    log loaded ++ [Fetch GET (ApiDocument (Some (js "doc-B"))) (js "tok") None] ∧
  token s = js "tok" ∧ user s = Some (js "{}") ∧
  ls_token s = Some (js "tok") ∧ ls_user s = Some (js "{}").
Proof. vm_compute. done. Qed.

(** *** Values found on the prototype chain *)

Lemma prototype_srcObject_snoc l e :
  prototype_srcObject (l ++ [e]) =
    match e with
    | SrcObjectOnBuiltin key v =>
        if bool_decide (key = js "__proto__") then v else prototype_srcObject l
    | _ => prototype_srcObject l
    end.
Proof. unfold prototype_srcObject. by rewrite foldl_app. Qed.

Lemma found_on_prototype_log s s' key :
  prototype_srcObject (log s') = prototype_srcObject (log s) →
  found_on_prototype s' key = found_on_prototype s key.
Proof. unfold found_on_prototype. by intros ->. Qed.

(** Only an assignment through the key '__proto__' changes what the chain
    holds, and what it changes is the property [srcObject]: a key reads
    the same before and after an assignment through itself. *)
Lemma found_on_prototype_cleared s key v :
  found_on_prototype (perform (SrcObjectOnBuiltin key v) s) key =
    found_on_prototype s key.
Proof.
  destruct (decide (key = js "__proto__")) as [-> | Hne].
  - reflexivity.
  - apply found_on_prototype_log. cbn [perform log].
    rewrite prototype_srcObject_snoc. by rewrite (bool_decide_eq_false_2 _ Hne).
Qed.

Lemma found_on_prototype_closed s key c :
  found_on_prototype (perform (CallClose c) s) key = found_on_prototype s key.
Proof.
  apply found_on_prototype_log. cbn [perform log].
  by rewrite prototype_srcObject_snoc.
Qed.

(** *** A participant leaves *)

Lemma on_user_left_video_gone s peerId :
  peers s !! to_string peerId = None → videoRefs s !! to_string peerId = None →
  on_user_left_video peerId s =
    if found_on_prototype s (to_string peerId)
    then perform (SrcObjectOnBuiltin (to_string peerId) None) s else s.
Proof.
  intros Hp Hv. unfold on_user_left_video. cbn zeta. rewrite Hp, Hv.
  destruct (found_on_prototype s (to_string peerId));
    by destruct s as [a d j [ic mp ms ps vr] e l].
Qed.

Lemma on_user_left_video_absent s peerId :
  peers s !! to_string peerId = None → videoRefs s !! to_string peerId = None →
  found_on_prototype s (to_string peerId) = false →
  on_user_left_video peerId s = s.
Proof. intros Hp Hv Hf. by rewrite on_user_left_video_gone, Hf. Qed.

(** A listener leaves what the chain holds under the key of its own
    notification as it was. *)
Lemma on_user_left_video_found s peerId :
  found_on_prototype (on_user_left_video peerId s) (to_string peerId) =
    found_on_prototype s (to_string peerId).
Proof.
  unfold on_user_left_video. cbn zeta.
  match goal with
  | |- context [match peers s !! _ with _ => _ end ?x] => set (s1 := x)
  end.
  assert (found_on_prototype s1 (to_string peerId) =
          found_on_prototype s (to_string peerId)) as H1.
  { subst s1. destruct (videoRefs s !! to_string peerId).
    - by apply found_on_prototype_log.
    - destruct (found_on_prototype s (to_string peerId)) eqn:Hf; [|done].
      by rewrite found_on_prototype_cleared. }
  destruct (peers s !! to_string peerId) as [c|].
  - rewrite <- H1, <- (found_on_prototype_closed s1 _ c).
    by apply found_on_prototype_log.
  - rewrite <- H1. by apply found_on_prototype_log.
Qed.

(** What one 'user-left-video' listener does, in every case. *)
Lemma on_user_left_video_effect s peerId :
  let key := to_string peerId in
  let s' := on_user_left_video peerId s in
  videoRefs s' = delete key (videoRefs s) ∧
  peers s' = delete key (peers s) ∧
  log s' = log s ++
    match videoRefs s !! key with
    | Some _ => []
    | None => if found_on_prototype s key
              then [SrcObjectOnBuiltin key None] else []
    end ++
    match peers s !! key with
    | Some c => [CallClose c]
    | None => []
    end.
Proof.
  cbn zeta. unfold on_user_left_video. cbn zeta.
  assert (∀ x : AppState, peers x !! to_string peerId = None →
            peers x = delete (to_string peerId) (peers x)) as Hpeers.
  { intros x Hx. by rewrite (obj_delete_id (peers x) _ Hx). }
  assert (∀ x : AppState, videoRefs x !! to_string peerId = None →
            videoRefs x = delete (to_string peerId) (videoRefs x)) as Hrefs.
  { intros x Hx. by rewrite (delete_id (videoRefs x) _ Hx). }
  destruct (videoRefs s !! to_string peerId) as [el|] eqn:Hv;
    [|destruct (found_on_prototype s (to_string peerId)) eqn:Hf];
    (destruct (peers s !! to_string peerId) as [c|] eqn:Hp;
     [|specialize (Hpeers s Hp)]);
    try specialize (Hrefs s Hv);
    cbn [app]; rewrite ?app_nil_r;
    repeat split; try done;
    cbn; by rewrite <- ?app_assoc.
Qed.

Lemma user_left_video_listeners_gone (ls : list (N * N)) s peerId :
  peers s !! to_string peerId = None → videoRefs s !! to_string peerId = None →
  foldl (λ s _, on_user_left_video peerId s) s ls =
    perform_all
      (if found_on_prototype s (to_string peerId)
       then replicate (length ls) (SrcObjectOnBuiltin (to_string peerId) None)
       else []) s.
Proof.
  revert s. induction ls as [|l ls IH]; intros s Hp Hv.
  { by destruct (found_on_prototype s (to_string peerId)). }
  cbn [foldl]. rewrite (on_user_left_video_gone s peerId Hp Hv).
  destruct (found_on_prototype s (to_string peerId)) eqn:Hf.
  - rewrite IH by done. by rewrite found_on_prototype_cleared, Hf.
  - rewrite IH by done. by rewrite Hf.
Qed.

Lemma socket_user_left_video_absent s peerId :
  peers s !! to_string peerId = None → videoRefs s !! to_string peerId = None →
  found_on_prototype s (to_string peerId) = false →
  socket_user_left_video peerId s = s.
Proof.
  intros Hp Hv Hf. unfold socket_user_left_video.
  by rewrite user_left_video_listeners_gone, Hf.
Qed.

Lemma on_user_left_video_frame s peerId :
  token (on_user_left_video peerId s) = token s ∧
  documents_ver (on_user_left_video peerId s) = documents_ver s ∧
  selectedDoc (on_user_left_video peerId s) = selectedDoc s.
Proof. unfold on_user_left_video. cbn zeta. by repeat case_match. Qed.

Lemma socket_user_left_video_frame s peerId :
  token (socket_user_left_video peerId s) = token s ∧
  documents_ver (socket_user_left_video peerId s) = documents_ver s ∧
  selectedDoc (socket_user_left_video peerId s) = selectedDoc s.
Proof.
  unfold socket_user_left_video. generalize (video_listeners s) as ls.
  intros ls. revert s. induction ls as [|l ls IH]; intros s; [done|].
  cbn [foldl]. destruct (IH (on_user_left_video peerId s)) as (-> & -> & ->).
  apply on_user_left_video_frame.
Qed.

Lemma step_UserLeftVideo s peerId :
  step (UserLeftVideo peerId) s = socket_user_left_video peerId s.
Proof.
  unfold step. cbn [handle].
  destruct (socket_user_left_video_frame s peerId) as (? & ? & ?).
  by apply render_same.
Qed.

(** The listeners of one 'user-left-video', taken together. *)
Lemma socket_user_left_video_effect s peerId :
  video_listeners s ≠ [] →
  let key := to_string peerId in
  let s' := socket_user_left_video peerId s in
  videoRefs s' = delete key (videoRefs s) ∧
  peers s' = delete key (peers s) ∧
  log s' = log s ++ left_video_effects s key.
Proof.
  intros Hl. cbn zeta. unfold socket_user_left_video, left_video_effects.
  destruct (video_listeners s) as [|l ls]; [done|]. cbn [foldl length].
  replace (S (length ls) - 1)%nat with (length ls) by lia.
  destruct (on_user_left_video_effect s peerId) as (Hv & Hp & Hlog).
  pose proof (on_user_left_video_found s peerId) as Hf.
  rewrite user_left_video_listeners_gone.
  2: { rewrite Hp. apply obj_lookup_delete_eq. }
  2: { rewrite Hv. apply lookup_delete_eq. }
  rewrite Hf. unfold videoRefs, peers in *.
  match goal with
  | |- context [perform_all ?l ?x] =>
      destruct (perform_all_frame l x) as (_ & _ & _ & -> & _);
      rewrite (perform_all_app l x)
  end.
  rewrite Hv, Hp, Hlog. repeat split.
  destruct (found_on_prototype s (to_string peerId));
    repeat case_match; cbn [replicate app]; by rewrite <- ?app_assoc, ?app_nil_r.
Qed.

(** C8.  A PeerLink is what the component holds for a peer: its connection
    in the peers map, its video element, or both.  A 'user-left-video'
    naming a peer for which the component holds neither leaves the peers map
    and the video references as they are, and the handler is a total
    function, so nothing is raised; the whole state is left as it is,
    unless the peer id is the name of a property of [Object.prototype],
    such as 'constructor': then the listeners clear [srcObject] on the
    built-in object of that name.  A 'user-left-video' while no call
    listener is registered changes nothing either.  Otherwise whatever the
    component holds for the peer is released: the video element is removed,
    also when the peer has no connection; the connection, when there is
    one, is closed and removed from the peers map; and no other connection
    is closed. *)
Theorem left_video_notification (s : AppState) (peerId : jsval) :
  let key := to_string peerId in
  let s' := step (UserLeftVideo peerId) s in
  (peers s !! key = None → videoRefs s !! key = None →
     peers s' = peers s ∧ videoRefs s' = videoRefs s ∧
     (found_on_prototype s key = false → s' = s)) ∧
  (video_listeners s = [] → s' = s) ∧
  (video_listeners s ≠ [] →
     videoRefs s' = delete key (videoRefs s) ∧
     peers s' = delete key (peers s) ∧
     log s' = log s ++ left_video_effects s key ∧
     (found_on_prototype s key = false →
        log s' = log s ++ match peers s !! key with
                          | Some c => [CallClose c]
                          | None => []
                          end)).
Proof.
  cbn zeta. rewrite step_UserLeftVideo. split; [|split].
  - intros Hp Hv. split; [|split].
    + destruct (video_listeners s) as [|l ls] eqn:Hl.
      * unfold socket_user_left_video. by rewrite Hl.
      * destruct (socket_user_left_video_effect s peerId) as (_ & -> & _).
        { by rewrite Hl. }
        by apply obj_delete_id.
    + destruct (video_listeners s) as [|l ls] eqn:Hl.
      * unfold socket_user_left_video. by rewrite Hl.
      * destruct (socket_user_left_video_effect s peerId) as (-> & _).
        { by rewrite Hl. }
        by apply delete_id.
    + by apply socket_user_left_video_absent.
  - unfold socket_user_left_video. by intros ->.
  - intros Hl.
    destruct (socket_user_left_video_effect s peerId Hl) as (Hv & Hp & Hlog).
    repeat split; try done.
    intros Hf. rewrite Hlog. unfold left_video_effects. rewrite Hf.
    by rewrite app_nil_r.
Qed.

Lemma left_video_notification_witness :
  step (UserLeftVideo (Some (js "ghost"))) calling = calling ∧
  (peers (step (UserLeftVideo (Some (js "constructor"))) calling) = peers calling ∧
   videoRefs (step (UserLeftVideo (Some (js "constructor"))) calling) =
     videoRefs calling) ∧
  step (UserLeftVideo (Some (js "p1"))) editing = editing ∧
  (videoRefs (step (UserLeftVideo (Some (js "p1"))) calling) =
     delete (to_string (Some (js "p1"))) (videoRefs calling) ∧
   peers (step (UserLeftVideo (Some (js "p1"))) calling) =
     delete (to_string (Some (js "p1"))) (peers calling) ∧
   log (step (UserLeftVideo (Some (js "p1"))) calling) =
     log calling ++ match peers calling !! to_string (Some (js "p1")) with
                    | Some c => [CallClose c]
                    | None => []
                    end) ∧
  (videoRefs (step (UserLeftVideo (Some (js "p1"))) orphaned) =
     delete (to_string (Some (js "p1"))) (videoRefs orphaned) ∧
   peers (step (UserLeftVideo (Some (js "p1"))) orphaned) =
     delete (to_string (Some (js "p1"))) (peers orphaned) ∧
   log (step (UserLeftVideo (Some (js "p1"))) orphaned) =
     log orphaned ++ match peers orphaned !! to_string (Some (js "p1")) with
                     | Some c => [CallClose c]
                     | None => []
                     end) ∧
  log (step (UserLeftVideo (Some (js "__proto__"))) proto_call) =
    log proto_call ++ left_video_effects proto_call (to_string (Some (js "__proto__"))).
Proof.
  split; [|split; [|split; [|split; [|split]]]].
  - refine (proj2 (proj2 (proj1 (left_video_notification calling (Some (js "ghost")))
                            _ _)) _);
      vm_compute; reflexivity.
  - destruct (proj1 (left_video_notification calling (Some (js "constructor"))))
      as (Hp & Hv & _).
    + vm_compute. reflexivity.
    + vm_compute. reflexivity.
    + split; [exact Hp | exact Hv].
  - refine (proj1 (proj2 (left_video_notification editing (Some (js "p1")))) _).
    vm_compute. reflexivity.
  - destruct (proj2 (proj2 (left_video_notification calling (Some (js "p1")))))
      as (Hv & Hp & _ & Hlog).
    + vm_compute. discriminate.
    + split; [exact Hv | split; [exact Hp |]]. apply Hlog. vm_compute. reflexivity.
  - destruct (proj2 (proj2 (left_video_notification orphaned (Some (js "p1")))))
      as (Hv & Hp & _ & Hlog).
    + vm_compute. discriminate.
    + split; [exact Hv | split; [exact Hp |]]. apply Hlog. vm_compute. reflexivity.
  - refine (proj1 (proj2 (proj2 (proj2 (proj2
      (left_video_notification proto_call (Some (js "__proto__")))) _)))).
    vm_compute. discriminate.
Defined.

(** The cases of the witness: a peer with a connection; a peer with a video
    element only, which is removed; a peer named 'constructor', for which
    the component holds nothing; and a peer named '__proto__', whose
    connection is closed after [srcObject] is cleared on
    [Object.prototype]. *)
Example left_video_cases :
  peers calling !! js "p1" = Some 2 ∧
  peers orphaned !! js "p1" = None ∧
  is_Some (videoRefs orphaned !! js "p1") ∧
  videoRefs (step (UserLeftVideo (Some (js "p1"))) orphaned) !! js "p1" = None ∧
  log (step (UserLeftVideo (Some (js "constructor"))) calling) =
    log calling ++ [SrcObjectOnBuiltin (js "constructor") None] ∧
  left_video_effects proto_call (js "__proto__") =
    [SrcObjectOnBuiltin (js "__proto__") None; CallClose 3].
Proof. vm_compute. eauto 10. Qed.

(** What a render can do to the selection: nothing, or select a document of
    the list (the one the page address names). *)
Lemma effect_autoselect_selectedDoc r s :
  selectedDoc (effect_autoselect r s) = selectedDoc s ∨
  ∃ d, selectedDoc (effect_autoselect r s) = Some d ∧ d ∈ documents r.
Proof.
  unfold effect_autoselect. repeat case_match; auto.
  right. eexists. split; [done|].
  match goal with H : List.find _ _ = Some _ |- _ => apply find_some in H as [H _] end.
  by apply list_elem_of_In.
Qed.

Lemma effect_join_document_selectedDoc r s :
  selectedDoc (effect_join_document r s) = selectedDoc s.
Proof. unfold effect_join_document. by case_match. Qed.
Lemma call_teardown_selectedDoc cl s : selectedDoc (call_teardown cl s) = selectedDoc s.
Proof. unfold selectedDoc. by rewrite (proj1 (proj2 (call_teardown_frame cl s))). Qed.
Lemma fetchDocuments_selectedDoc t s : selectedDoc (fetchDocuments t s) = selectedDoc s.
Proof. unfold selectedDoc. by rewrite (proj2 (fetchDocuments_frame t s)). Qed.
Lemma effect_call_selectedDoc r s : selectedDoc (effect_call r s) = selectedDoc s.
Proof. done. Qed.
Lemma effect_join_document_cleanup_selectedDoc s :
  selectedDoc (effect_join_document_cleanup s) = selectedDoc s.
Proof. done. Qed.

Lemma commit_selectedDoc prev r :
  selectedDoc (commit prev r) = selectedDoc r ∨
  ∃ d, selectedDoc (commit prev r) = Some d ∧ d ∈ documents r.
Proof.
  split_commit;
  rewrite ?effect_call_selectedDoc, ?effect_join_document_selectedDoc,
    ?fetchDocuments_selectedDoc;
  try (left;
       rewrite ?call_teardown_selectedDoc, ?effect_join_document_cleanup_selectedDoc;
       done);
  match goal with
  | |- context [effect_autoselect r ?x] =>
      destruct (effect_autoselect_selectedDoc r x) as [-> | ?]; [left|by right]
  end;
  rewrite ?call_teardown_selectedDoc, ?effect_join_document_cleanup_selectedDoc;
  done.
Qed.

Lemma render_selectedDoc prev s :
  selectedDoc (render prev s) = selectedDoc s ∨
  ∃ d, selectedDoc (render prev s) = Some d ∧ d ∈ documents s.
Proof.
  unfold render.
  destruct (commit_selectedDoc s (commit prev s)) as [-> | (d & -> & Hd)].
  - apply commit_selectedDoc.
  - right. exists d. split; [done|]. by rewrite commit_documents in Hd.
Qed.

(** C10.  When the DELETE request has settled, rejected or answered with
    any status alike, the documents with the deleted id are filtered out of
    the list; and when the document selected at the time of the click was
    the deleted one, the selection is cleared, so that after the render no
    document with that id is selected. *)
Theorem delete_doc_is_local_and_unconditional (s : AppState) (docId : jsval)
    (selected : option Doc) (r : FetchResult unit) :
  let s' := step (DeleteDocSettled docId selected r) s in
  documents s' = filter (λ d, _id d ≠ docId) (documents s) ∧
  (∀ d, selected = Some d → _id d = docId →
     selectedDoc (handle (DeleteDocSettled docId selected r) s) = None ∧
     ∀ d', selectedDoc s' = Some d' → _id d' ≠ docId).
Proof.
  cbn zeta. unfold step. rewrite render_documents. cbn [handle]. split.
  - unfold handleDeleteDoc_settled, when. by case_match.
  - intros d -> Hd.
    assert (selectedDoc (handleDeleteDoc_settled docId (Some d) r s) = None) as Hnone.
    { unfold handleDeleteDoc_settled, when. by rewrite bool_decide_eq_true_2. }
    split; [done|]. intros d' Hd'.
    destruct (render_selectedDoc s (handleDeleteDoc_settled docId (Some d) r s))
      as [E | (d0 & E & Hin)].
    + congruence.
    + rewrite Hd' in E. injection E as <-.
      assert (documents (handleDeleteDoc_settled docId (Some d) r s) =
              filter (λ d, _id d ≠ docId) (documents s)) as Hdocs.
      { unfold handleDeleteDoc_settled, when. by case_match. }
      rewrite Hdocs in Hin. by apply list_elem_of_filter in Hin as [? _].
Qed.

Lemma delete_doc_is_local_and_unconditional_witness :
  selectedDoc (handle (DeleteDocSettled (_id docA) (Some docA) (Rejected [])) editing) = None ∧
  documents (step (DeleteDocSettled (_id docA) (Some docA) (Response 500 (JsonError []))) editing)
    = [docB].
Proof.
  split.
  - apply (delete_doc_is_local_and_unconditional editing (_id docA) (Some docA)
             (Rejected []) ) with (d := docA); reflexivity.
  - rewrite (proj1 (delete_doc_is_local_and_unconditional editing (_id docA) (Some docA)
                      (Response 500 (JsonError [])))).
    vm_compute. reflexivity.
Defined.

(** * Further properties *)

(** ** Links *)

Lemma trimStart_suffix s : ∃ a, s = a ++ trimStart s.
Proof.
  induction s as [|c s [a IH]]; simpl.
  - by exists [].
  - destruct (is_ws c).
    + exists (c :: a). simpl. by rewrite <- IH.
    + by exists [].
Qed.

Lemma trimStart_nil s : trimStart s = [] → Forall (λ c, is_ws c = true) s.
Proof.
  induction s as [|c s IH]; simpl; [constructor|].
  destruct (is_ws c) eqn:E; [|discriminate]. intros H. constructor; auto.
Qed.

Lemma trim_infix s : ∃ a b, s = a ++ trim s ++ b.
Proof.
  unfold trim. destruct (trimStart_suffix s) as [a Ha].
  destruct (trimStart_suffix (rev (trimStart s))) as [x Hx].
  exists a, (rev x). rewrite <- rev_app_distr, <- Hx, rev_involutive. done.
Qed.

Lemma trim_nil s : trim s = [] → Forall (λ c, is_ws c = true) s.
Proof.
  unfold trim. intros H.
  apply (f_equal (@rev N)) in H. rewrite rev_involutive in H. simpl in H.
  apply trimStart_nil in H. apply Forall_forall.
  destruct (trimStart s) as [|c t] eqn:E.
  - apply Forall_forall. by apply trimStart_nil.
  - exfalso.
    assert (is_ws c = true) as Hc.
    { rewrite Forall_forall in H. apply H. apply list_elem_of_In, in_rev.
      rewrite rev_involutive. by left. }
    clear H. induction s as [|d s IH]; simpl in E; [discriminate|].
    destruct (is_ws d) eqn:Ed; [auto|]. congruence.
Qed.

Lemma up_to_infix sep b m : up_to sep b m → ∃ x y, b = x ++ m ++ y.
Proof.
  intros [[_ ->] | (r & -> & _)].
  - exists [], []. by rewrite app_nil_r.
  - by exists [], (sep ++ r).
Qed.

Lemma includes_cut sep s :
  includes sep s = true → ∃ a b, leftmost_cut sep s a b.
Proof.
  unfold includes. destruct (cut sep s) as [[a b]|] eqn:C; [|discriminate].
  intros _. exists a, b. by apply cut_Some.
Qed.

Lemma resolved_id_infix (link d : jsstring) :
  resolveJoinLink link = DocId d → d ≠ [] ∧ ∃ a b, link = a ++ d ++ b.
Proof.
  unfold resolveJoinLink. destruct (negb (truthy (Some (trim link)))); [discriminate|].
  assert (∀ sep, sep ≠ [] → includes sep link = true →
            ∀ m, split sep link !! 1%nat = Some m → ∃ a b, link = a ++ m ++ b) as Hsplit.
  { intros sep Hsep [a [b Hcut]]%includes_cut m Hm.
    destruct (split_second sep link a b Hsep Hcut) as (m' & Hm' & Hup).
    rewrite Hm in Hm'. injection Hm' as <-.
    destruct (up_to_infix _ _ _ Hup) as (x & y & Hb). destruct Hcut as [-> _].
    exists (a ++ sep ++ x), y. rewrite Hb. by rewrite <- !app_assoc. }
  unfold handleJoinDocument_docId.
  destruct (includes qdoc link) eqn:Eq.
  - destruct (split qdoc link !! 1%nat) as [[|c r]|] eqn:Em; try discriminate.
    intros [= <-]. split; [done|]. by apply (Hsplit qdoc qdoc_nonempty Eq).
  - destruct (includes documents_seg link) eqn:Ed.
    + destruct (split documents_seg link !! 1%nat) as [[|c r]|] eqn:Em; try discriminate.
      intros [= <-]. split; [done|]. by apply (Hsplit documents_seg documents_seg_nonempty Ed).
    + destruct (trim link) as [|c r] eqn:Et; [discriminate|].
      intros [= <-]. split; [done|]. rewrite <- Et. apply trim_infix.
Qed.

(** X1.  The resolver never makes an id up: a resolved id is not empty and
    is a contiguous part of the link that was typed. *)
Theorem resolved_id_is_part_of_link (link d : jsstring) :
  resolveJoinLink link = DocId d → d ≠ [] ∧ ∃ a b, link = a ++ d ++ b.
Proof. apply resolved_id_infix. Qed.

Lemma resolved_id_is_part_of_link_witness :
  js "abc" ≠ [] ∧ ∃ a b, js "h/documents/abc" = a ++ js "abc" ++ b.
Proof.
  apply (resolved_id_is_part_of_link (js "h/documents/abc") (js "abc")).
  vm_compute. reflexivity.
Defined.

(** With ['?doc='] nothing but its first code unit is a ['?'], so an
    occurrence cannot straddle the end of a text that has none. *)
Lemma qdoc_leftmost origin rest :
  ¬ occurs qdoc origin → leftmost_cut qdoc (origin ++ qdoc ++ rest) origin rest.
Proof.
  intros Hno. split; [done|]. intros a' b' H.
  apply app_eq_inv in H as [(k & -> & H) | (k & -> & _)].
  - destruct k as [|c k]; [rewrite app_nil_r; lia|]. exfalso.
    apply app_eq_inv in H as [(k2 & H1 & H2) | (k2 & Hk & _)].
    + change qdoc with [63; 100; 111; 99; 61] in H1, H2.
      injection H1 as <- H1.
      do 4 (destruct k as [|? k]; simpl in H1;
            [subst k2; discriminate H2 | injection H1 as <- H1]).
      destruct k; [|discriminate H1]. apply Hno. by exists a', [].
    + rewrite Hk in Hno. apply Hno. by exists a', k2.
  - rewrite length_app. lia.
Qed.

Lemma not_blank_with (c : N) s : is_ws c = false → c ∈ s → trim s ≠ [].
Proof.
  intros Hc Hin Ht. apply trim_nil in Ht. rewrite Forall_forall in Ht.
  specialize (Ht c Hin). congruence.
Qed.

(** X2.  The share link shown for a document resolves back to the id of
    that document, whenever neither the origin of the page nor the id
    contains '?doc=' and the id is not empty. *)
Theorem share_link_round_trip (origin : jsstring) (doc : Doc) :
  ¬ occurs qdoc origin → ¬ occurs qdoc (to_string (_id doc)) →
  to_string (_id doc) ≠ [] →
  resolveJoinLink (shareLink origin doc) = DocId (to_string (_id doc)).
Proof.
  intros Ho Hi Hne. unfold shareLink. fold qdoc.
  pose proof (qdoc_leftmost origin (to_string (_id doc)) Ho) as Hcut.
  rewrite resolve_nonblank.
  - unfold handleJoinDocument_docId.
    assert (includes qdoc (origin ++ qdoc ++ to_string (_id doc)) = true) as ->.
    { apply includes_true. by exists origin, (to_string (_id doc)). }
    destruct (split_second _ _ _ _ qdoc_nonempty Hcut) as (m & -> & [[_ ->] | (r & Hr & _)]).
    + by destruct (to_string (_id doc)).
    + destruct Hi. by exists m, r.
  - apply (not_blank_with 63); [done|].
    apply list_elem_of_In, in_or_app. right. by left.
Qed.

Lemma share_link_round_trip_witness :
  resolveJoinLink (shareLink (js "http://localhost:5173") docA) = DocId (js "doc-A").
Proof.
  apply (share_link_round_trip (js "http://localhost:5173") docA).
  - apply includes_false. vm_compute. reflexivity.
  - apply includes_false. vm_compute. reflexivity.
  - discriminate.
Defined.

(** ** What handlers and effects leave alone *)

Section Keeps.
Context {A : Type} (proj : AppState → A).

Lemma keeps_foldl {B} (f : B → AppState → AppState) (l : list B) :
  (∀ b, keeps proj (f b)) → keeps proj (λ s, foldl (λ s b, f b s) s l).
Proof.
  intros Hf. induction l as [|b l IH]; intros s; [done|].
  cbn [foldl]. rewrite IH. apply Hf.
Qed.

Lemma keeps_iter (f : AppState → AppState) (n : nat) :
  keeps proj f → keeps proj (Nat.iter n f).
Proof.
  intros Hf. induction n as [|n IH]; intros s; [done|].
  simpl. rewrite Hf. apply IH.
Qed.
End Keeps.

Lemma perform_all_env l s : env (perform_all l s) = env s.
Proof. apply perform_all_frame. Qed.

Lemma perform_all_docs l s : docs (perform_all l s) = docs s.
Proof. apply perform_all_frame. Qed.

Lemma call_teardown_env cl s : env (call_teardown cl s) = env s.
Proof.
  destruct cl as [[mp ms] ps]. unfold call_teardown. cbn.
  rewrite perform_all_env. by destruct mp, ms.
Qed.

Lemma call_teardown_log cl s :
  log (call_teardown cl s) = log s ++ teardown_effects cl.
Proof.
  destruct cl as [[mp ms] ps]. unfold call_teardown, teardown_effects. cbn.
  rewrite perform_all_app. destruct mp, ms; cbn; by rewrite <- ?app_assoc.
Qed.

Lemma call_teardown_call cl s :
  call (call_teardown cl s) = mkCall false None None ∅ ∅.
Proof. by destruct cl as [[mp ms] ps]. Qed.

(** The 'user-joined-video' listeners, as many as there are and whether or
    not one of them throws, write the call and the log only. *)
Lemma emit_user_joined_video_keeps ls peerId s :
  let s' := emit_user_joined_video ls peerId s in
  auth s' = auth s ∧ docs s' = docs s ∧
  doc_listeners s' = doc_listeners s ∧ doc_cleanup s' = doc_cleanup s ∧
  video_listeners s' = video_listeners s ∧ peer_id s' = peer_id s.
Proof.
  cbn zeta. revert s. induction ls as [|l ls IH]; intros s; [done|].
  cbn [emit_user_joined_video].
  destruct (on_user_joined_video l.1 l.2 peerId s) as [s1|] eqn:E; [|done].
  destruct (on_user_joined_video_keeps _ _ _ _ _ E) as (<- & <- & <- & <- & <- & <-).
  apply IH.
Qed.

Lemma on_user_left_video_docs peerId s :
  docs (on_user_left_video peerId s) = docs s ∧
  auth (on_user_left_video peerId s) = auth s.
Proof. unfold on_user_left_video. cbn zeta. by repeat case_match. Qed.

Lemma on_user_left_video_env peerId s :
  doc_listeners (on_user_left_video peerId s) = doc_listeners s ∧
  doc_cleanup (on_user_left_video peerId s) = doc_cleanup s ∧
  video_listeners (on_user_left_video peerId s) = video_listeners s.
Proof. unfold on_user_left_video. cbn zeta. by repeat case_match. Qed.

Ltac unfold_handlers :=
  unfold handleLogout, fetchDocuments_settled, handleSelectDoc,
    handleSelectDoc_settled, handleCreateDoc, handleCreateDoc_settled,
    handleDeleteDoc, handleDeleteDoc_settled, joinInput_onChange,
    handleJoinDocument, handleJoinDocument_settled, join_failed,
    handleEditorChange, handleEditorChange_settled, handleJoinVideoCall,
    handleJoinVideoCall_settled, peer_on_open, peer_on_call, call_on_stream,
    fresh, when.

Ltac solve_handler :=
  unfold_handlers; cbn zeta; repeat case_match; try done;
  addPeerStream_frame; done.

(** No handler registers or removes a 'document-updated' listener: only the
    effect of line 78 does. *)
Lemma handle_doc_listening e s :
  doc_listeners (handle e s) = doc_listeners s ∧
  doc_cleanup (handle e s) = doc_cleanup s.
Proof.
  destruct e; cbn [handle]; try solve_handler.
  - unfold socket_document_updated. split.
    + by apply (keeps_iter doc_listeners).
    + by apply (keeps_iter doc_cleanup).
  - unfold socket_user_joined_video.
    destruct (emit_user_joined_video_keeps (video_listeners s) peerId s)
      as (_ & _ & ? & ? & _). done.
  - unfold socket_user_left_video. split.
    + apply (keeps_foldl doc_listeners (λ _ : N * N, on_user_left_video peerId)).
      intros b t. apply on_user_left_video_env.
    + apply (keeps_foldl doc_cleanup (λ _ : N * N, on_user_left_video peerId)).
      intros b t. apply on_user_left_video_env.
Qed.

Lemma effect_autoselect_env r s : env (effect_autoselect r s) = env s.
Proof. unfold effect_autoselect. repeat case_match; done. Qed.

Lemma fetchDocuments_env t s : env (fetchDocuments t s) = env s.
Proof. unfold fetchDocuments. by destruct t. Qed.

Lemma effect_autoselect_token_ver r s :
  token (effect_autoselect r s) = token s ∧
  documents_ver (effect_autoselect r s) = documents_ver s.
Proof. unfold effect_autoselect. repeat case_match; done. Qed.

(** Per effect, the parts of the state it does not write. *)
Lemma effect_join_document_cleanup_documents_ver s : documents_ver (effect_join_document_cleanup s) = documents_ver s.
Proof. done. Qed.
Lemma call_teardown_documents_ver cl s : documents_ver (call_teardown cl s) = documents_ver s.
Proof. unfold documents_ver. by rewrite (proj1 (proj2 (call_teardown_frame cl s))). Qed.
Lemma effect_autoselect_documents_ver r s : documents_ver (effect_autoselect r s) = documents_ver s.
Proof. unfold effect_autoselect. repeat case_match; done. Qed.
Lemma fetchDocuments_documents_ver t s : documents_ver (fetchDocuments t s) = documents_ver s.
Proof. unfold fetchDocuments. by destruct t. Qed.
Lemma effect_join_document_documents_ver r s : documents_ver (effect_join_document r s) = documents_ver s.
Proof. unfold effect_join_document. by case_match. Qed.
Lemma effect_call_documents_ver r s : documents_ver (effect_call r s) = documents_ver s.
Proof. done. Qed.
Lemma effect_join_document_cleanup_isRemote s : isRemote (effect_join_document_cleanup s) = isRemote s.
Proof. done. Qed.
Lemma call_teardown_isRemote cl s : isRemote (call_teardown cl s) = isRemote s.
Proof. unfold isRemote. by rewrite (proj1 (proj2 (call_teardown_frame cl s))). Qed.
Lemma effect_autoselect_isRemote r s : isRemote (effect_autoselect r s) = isRemote s.
Proof. unfold effect_autoselect. repeat case_match; done. Qed.
Lemma fetchDocuments_isRemote t s : isRemote (fetchDocuments t s) = isRemote s.
Proof. unfold fetchDocuments. by destruct t. Qed.
Lemma effect_join_document_isRemote r s : isRemote (effect_join_document r s) = isRemote s.
Proof. unfold effect_join_document. by case_match. Qed.
Lemma effect_call_isRemote r s : isRemote (effect_call r s) = isRemote s.
Proof. done. Qed.
Lemma effect_join_document_cleanup_video_listeners s : video_listeners (effect_join_document_cleanup s) = video_listeners s.
Proof. done. Qed.
Lemma call_teardown_video_listeners cl s : video_listeners (call_teardown cl s) = video_listeners s.
Proof. unfold video_listeners. by rewrite call_teardown_env. Qed.
Lemma effect_autoselect_video_listeners r s : video_listeners (effect_autoselect r s) = video_listeners s.
Proof. unfold effect_autoselect. repeat case_match; done. Qed.
Lemma fetchDocuments_video_listeners t s : video_listeners (fetchDocuments t s) = video_listeners s.
Proof. unfold fetchDocuments. by destruct t. Qed.
Lemma effect_join_document_video_listeners r s : video_listeners (effect_join_document r s) = video_listeners s.
Proof. unfold effect_join_document. by case_match. Qed.
Lemma effect_call_video_listeners r s : video_listeners (effect_call r s) = video_listeners s.
Proof. done. Qed.
Lemma effect_join_document_cleanup_peer_id s : peer_id (effect_join_document_cleanup s) = peer_id s.
Proof. done. Qed.
Lemma call_teardown_peer_id cl s : peer_id (call_teardown cl s) = peer_id s.
Proof. unfold peer_id. by rewrite call_teardown_env. Qed.
Lemma effect_autoselect_peer_id r s : peer_id (effect_autoselect r s) = peer_id s.
Proof. unfold effect_autoselect. repeat case_match; done. Qed.
Lemma fetchDocuments_peer_id t s : peer_id (fetchDocuments t s) = peer_id s.
Proof. unfold fetchDocuments. by destruct t. Qed.
Lemma effect_join_document_peer_id r s : peer_id (effect_join_document r s) = peer_id s.
Proof. unfold effect_join_document. by case_match. Qed.
Lemma effect_call_peer_id r s : peer_id (effect_call r s) = peer_id s.
Proof. done. Qed.
Lemma effect_join_document_cleanup_location_doc s : location_doc (effect_join_document_cleanup s) = location_doc s.
Proof. done. Qed.
Lemma call_teardown_location_doc cl s : location_doc (call_teardown cl s) = location_doc s.
Proof. unfold location_doc. by rewrite call_teardown_env. Qed.
Lemma effect_autoselect_location_doc r s : location_doc (effect_autoselect r s) = location_doc s.
Proof. unfold effect_autoselect. repeat case_match; done. Qed.
Lemma fetchDocuments_location_doc t s : location_doc (fetchDocuments t s) = location_doc s.
Proof. unfold fetchDocuments. by destruct t. Qed.
Lemma effect_join_document_location_doc r s : location_doc (effect_join_document r s) = location_doc s.
Proof. unfold effect_join_document. by case_match. Qed.
Lemma effect_call_location_doc r s : location_doc (effect_call r s) = location_doc s.
Proof. done. Qed.
Lemma effect_join_document_cleanup_token s : token (effect_join_document_cleanup s) = token s.
Proof. done. Qed.
Lemma call_teardown_token cl s : token (call_teardown cl s) = token s.
Proof. unfold token. by rewrite (proj1 (call_teardown_frame cl s)). Qed.
Lemma effect_autoselect_token r s : token (effect_autoselect r s) = token s.
Proof. unfold effect_autoselect. repeat case_match; done. Qed.
Lemma fetchDocuments_token t s : token (fetchDocuments t s) = token s.
Proof. unfold fetchDocuments. by destruct t. Qed.
Lemma effect_join_document_token r s : token (effect_join_document r s) = token s.
Proof. unfold effect_join_document. by case_match. Qed.
Lemma effect_call_token r s : token (effect_call r s) = token s.
Proof. done. Qed.

Create Rewrite HintDb frame.
#[export] Hint Rewrite
  effect_join_document_cleanup_documents_ver
  call_teardown_documents_ver
  effect_autoselect_documents_ver
  fetchDocuments_documents_ver
  effect_join_document_documents_ver
  effect_call_documents_ver
  effect_join_document_cleanup_isRemote
  call_teardown_isRemote
  effect_autoselect_isRemote
  fetchDocuments_isRemote
  effect_join_document_isRemote
  effect_call_isRemote
  effect_join_document_cleanup_video_listeners
  call_teardown_video_listeners
  effect_autoselect_video_listeners
  fetchDocuments_video_listeners
  effect_join_document_video_listeners
  effect_call_video_listeners
  effect_join_document_cleanup_peer_id
  call_teardown_peer_id
  effect_autoselect_peer_id
  fetchDocuments_peer_id
  effect_join_document_peer_id
  effect_call_peer_id
  effect_join_document_cleanup_location_doc
  call_teardown_location_doc
  effect_autoselect_location_doc
  fetchDocuments_location_doc
  effect_join_document_location_doc
  effect_call_location_doc
  effect_join_document_cleanup_token
  call_teardown_token
  effect_autoselect_token
  fetchDocuments_token
  effect_join_document_token
  effect_call_token : frame.

Ltac frame_commit := split_commit; autorewrite with frame; try done.

(** Effects never touch the identity of the list of documents, the
    suppression flag, the call listeners, the ids of the peers or the page
    address. *)
Lemma commit_documents_ver prev r : documents_ver (commit prev r) = documents_ver r.
Proof. frame_commit. Qed.
Lemma commit_isRemote prev r : isRemote (commit prev r) = isRemote r.
Proof. frame_commit. Qed.
Lemma commit_video_listeners prev r : video_listeners (commit prev r) = video_listeners r.
Proof. frame_commit. Qed.
Lemma commit_token prev r : token (commit prev r) = token r.
Proof. frame_commit. Qed.
Lemma commit_location_doc prev r : location_doc (commit prev r) = location_doc r.
Proof. frame_commit. Qed.

Lemma render_isRemote prev s : isRemote (render prev s) = isRemote s.
Proof. unfold render. by rewrite !commit_isRemote. Qed.
Lemma render_video_listeners prev s : video_listeners (render prev s) = video_listeners s.
Proof. unfold render. by rewrite !commit_video_listeners. Qed.
Lemma render_token prev s : token (render prev s) = token s.
Proof. unfold render. by rewrite !commit_token. Qed.
Lemma render_location_doc prev s : location_doc (render prev s) = location_doc s.
Proof. unfold render. by rewrite !commit_location_doc. Qed.

(** A render whose token and list are those of the render before leaves
    the selection as the handler set it. *)
Lemma commit_selectedDoc_stable prev r :
  token prev = token r → documents_ver prev = documents_ver r →
  selectedDoc (commit prev r) = selectedDoc r.
Proof.
  intros Ht Hd. unfold commit.
  rewrite (bool_decide_eq_false_2 (token prev ≠ token r)) by auto.
  rewrite (bool_decide_eq_false_2 (documents_ver prev ≠ documents_ver r)) by auto.
  unfold when. cbn [orb].
  repeat match goal with
  | |- context [if ?b then _ else _] => destruct b
  end; cbn beta;
  rewrite ?effect_call_selectedDoc, ?effect_join_document_selectedDoc,
    ?call_teardown_selectedDoc, ?effect_join_document_cleanup_selectedDoc; done.
Qed.

(** ** The 'document-updated' listener *)

Ltac env_frame :=
  unfold doc_cleanup, doc_listeners; cbn;
  rewrite ?fetchDocuments_env, ?effect_autoselect_env, ?call_teardown_env; cbn.

Lemma commit_listening prev r :
  doc_cleanup r = bool_decide (is_Some (selectedDoc prev)) →
  doc_listeners r = (if doc_cleanup r then 1 else 0)%nat →
  doc_cleanup (commit prev r) = bool_decide (is_Some (selectedDoc r)) ∧
  doc_listeners (commit prev r) = (if doc_cleanup (commit prev r) then 1 else 0)%nat.
Proof.
  intros Hc Hl. unfold commit.
  generalize (bool_decide (token prev ≠ token r)) as tc.
  generalize (bool_decide (documents_ver prev ≠ documents_ver r)) as dc.
  intros dc tc.
  destruct (decide (selectedDoc prev = selectedDoc r)) as [E|E].
  - rewrite (bool_decide_eq_false_2 (selectedDoc prev ≠ selectedDoc r)) by auto.
    rewrite <- E, <- Hc. unfold when. cbn [andb].
    assert (∀ x, env x = env r →
              doc_cleanup x = doc_cleanup r ∧
              doc_listeners x = (if doc_cleanup x then 1 else 0)%nat) as Hx.
    { intros x Hx. unfold doc_cleanup, doc_listeners in *. by rewrite Hx. }
    apply Hx. destruct tc, dc; cbn [orb];
      by rewrite ?fetchDocuments_env, ?effect_autoselect_env.
  - rewrite (bool_decide_eq_true_2 (selectedDoc prev ≠ selectedDoc r)) by auto.
    unfold when. cbn [andb]. unfold effect_call, effect_join_document.
    destruct (doc_cleanup r) eqn:Ec; unfold doc_listeners in Hl;
      destruct (selectedDoc r) as [d|]; destruct tc, dc; cbn [orb];
      env_frame; rewrite ?Hl; done.
Qed.

Lemma render_listening prev s :
  doc_cleanup s = bool_decide (is_Some (selectedDoc prev)) →
  doc_listeners s = (if doc_cleanup s then 1 else 0)%nat →
  listening_matches_selection (render prev s).
Proof.
  intros Hc Hl. unfold render, listening_matches_selection.
  destruct (commit_listening prev s Hc Hl) as [Hc1 Hl1].
  destruct (commit_listening s (commit prev s) Hc1 Hl1) as [Hc2 Hl2].
  split; [|done]. rewrite Hc2.
  rewrite (commit_selectedDoc_stable s (commit prev s)); [done| |].
  - by rewrite commit_token.
  - by rewrite commit_documents_ver.
Qed.

Lemma step_listening e s :
  listening_matches_selection s → listening_matches_selection (step e s).
Proof.
  intros [Hc Hl]. unfold step.
  destruct (handle_doc_listening e s) as [Hl' Hc'].
  apply render_listening; rewrite Hc'; [done|]. by rewrite Hl'.
Qed.

Lemma mount_listening tok usr loc :
  listening_matches_selection (mount (initial tok usr loc)).
Proof.
  unfold mount. set (s0 := initial tok usr loc).
  set (s1 := effect_call s0 _).
  assert (doc_cleanup s1 = bool_decide (is_Some (selectedDoc s0)) ∧
          doc_listeners s1 = (if doc_cleanup s1 then 1 else 0)%nat ∧
          token s1 = token s0 ∧ documents_ver s1 = documents_ver s0) as (Hc & Hl & Ht & Hd).
  { subst s1. autorewrite with frame.
    unfold effect_call, effect_join_document. change (selectedDoc s0) with (@None Doc).
    env_frame. done. }
  destruct (commit_listening s0 s1 Hc Hl) as [Hc2 Hl2].
  split; [|done]. rewrite Hc2.
  by rewrite (commit_selectedDoc_stable s0 s1).
Qed.

Lemma reachable_listening (tok usr : option jsstring) (loc : jsval) (es : list Event) :
  listening_matches_selection (run es (mount (initial tok usr loc))).
Proof.
  generalize (mount_listening tok usr loc).
  generalize (mount (initial tok usr loc)) as s.
  unfold run. induction es as [|e es IH]; intros s Hs; [done|].
  cbn [foldl]. apply IH. by apply step_listening.
Qed.

(** X3.  In every state the component can reach, the socket holds exactly
    one 'document-updated' listener while a document is selected and none
    while no document is selected. *)
Theorem one_listener_while_selected (tok usr : option jsstring) (loc : jsval)
    (es : list Event) :
  let s := run es (mount (initial tok usr loc)) in
  doc_listeners s = (if bool_decide (is_Some (selectedDoc s)) then 1 else 0)%nat.
Proof.
  cbn zeta. destruct (reachable_listening tok usr loc es) as [Hc Hl].
  by rewrite Hl, Hc.
Qed.

(** X18.  In every state the component can reach, a remote update is
    applied exactly when a document is open: with a document selected it
    replaces the buffer and raises the suppression flag, with none selected
    it changes nothing; in both cases it sends nothing. *)
Theorem remote_update_applies_iff_open (tok usr : option jsstring) (loc : jsval)
    (es : list Event) (c : jsval) :
  let s := run es (mount (initial tok usr loc)) in
  let s' := step (DocumentUpdated c) s in
  (selectedDoc s = None → s' = s) ∧
  (is_Some (selectedDoc s) →
     content s' = c ∧ isRemote s' = true ∧ selectedDoc s' = selectedDoc s ∧
     log s' = log s).
Proof.
  cbn zeta. destruct (reachable_listening tok usr loc es) as [Hc Hl].
  set (s := run es _) in *. split.
  - intros Hn. rewrite Hc, Hn in Hl. cbn in Hl.
    unfold step. cbn [handle]. unfold socket_document_updated. rewrite Hl. cbn.
    by apply render_same.
  - intros Hs. rewrite Hc, (bool_decide_eq_true_2 _ Hs) in Hl.
    rewrite (step_DocumentUpdated s c) by lia. done.
Qed.

Lemma remote_update_applies_iff_open_witness :
  step (DocumentUpdated (Some (js "remote")))
       (run [] (mount (initial (Some (js "tok")) (Some (js "{}")) None))) =
    run [] (mount (initial (Some (js "tok")) (Some (js "{}")) None)) ∧
  content (step (DocumentUpdated (Some (js "remote")))
             (run [FetchDocumentsSettled (Response 200 (Json (Some [docA; docB])));
                   SelectDoc docA]
                  (mount (initial (Some (js "tok")) (Some (js "{}")) None))))
    = Some (js "remote").
Proof.
  split.
  - refine (proj1 (remote_update_applies_iff_open
                     (Some (js "tok")) (Some (js "{}")) None [] (Some (js "remote"))) _).
    vm_compute. reflexivity.
  - refine (proj1 (proj2 (remote_update_applies_iff_open
                     (Some (js "tok")) (Some (js "{}")) None
                     [FetchDocumentsSettled (Response 200 (Json (Some [docA; docB])));
                      SelectDoc docA]
                     (Some (js "remote"))) _)).
    vm_compute. eauto.
Defined.

(** ** The call listeners *)

Lemma handle_video_listeners e s :
  video_listeners (handle e s) =
    video_listeners s ++
    match e with
    | JoinVideoCallSettled _ true => [(N.succ (next_handle s), next_handle s)]
    | _ => []
    end.
Proof.
  destruct e; cbn [handle]; rewrite ?app_nil_r;
    try (unfold_handlers; cbn zeta; repeat case_match; rewrite ?app_nil_r;
         try done; addPeerStream_frame; done).
  - by apply (keeps_iter video_listeners).
  - apply (emit_user_joined_video_keeps (video_listeners s) peerId s).
  - apply (keeps_foldl video_listeners (λ _ : N * N, on_user_left_video peerId)).
    intros b t. apply on_user_left_video_env.
Qed.

Lemma granted_joins_cons e es :
  granted_joins (e :: es) =
    (match e with JoinVideoCallSettled _ true => 1 | _ => 0 end + granted_joins es)%nat.
Proof. unfold granted_joins. simpl. repeat case_match; done. Qed.

(** X4.  The 'user-joined-video' and 'user-left-video' listeners that a
    join registers are never removed: over any sequence of events the list
    of registered listeners only grows at its end, by one pair for every
    join whose camera request was granted, document switches and logouts
    included. *)
Theorem call_listeners_accumulate (es : list Event) (s : AppState) :
  video_listeners s `prefix_of` video_listeners (run es s) ∧
  length (video_listeners (run es s)) =
    (length (video_listeners s) + granted_joins es)%nat.
Proof.
  revert s. unfold run. induction es as [|e es IH]; intros s; cbn [foldl].
  - split; [done|]. unfold granted_joins. simpl. lia.
  - destruct (IH (step e s)) as [Hp Hl].
    assert (video_listeners (step e s) =
            video_listeners s ++
            match e with
            | JoinVideoCallSettled _ true => [(N.succ (next_handle s), next_handle s)]
            | _ => []
            end) as Hs.
    { unfold step. rewrite render_video_listeners. apply handle_video_listeners. }
    rewrite Hs in Hp, Hl. split.
    + etrans; [|exact Hp]. by apply prefix_app_r.
    + rewrite Hl, length_app, granted_joins_cons.
      repeat case_match; simpl; lia.
Qed.

(** ** The suppression flag *)

Lemma handle_isRemote_down e s :
  ¬ is_remote_update e → isRemote s = false → isRemote (handle e s) = false.
Proof.
  intros He Hs. destruct e; cbn [handle]; try (by destruct He);
    try solve_handler.
  - unfold socket_user_joined_video.
    rewrite <- Hs. unfold isRemote.
    by rewrite (proj1 (proj2 (emit_user_joined_video_keeps (video_listeners s) peerId s))).
  - unfold socket_user_left_video.
    rewrite <- Hs.
    apply (keeps_foldl isRemote (λ _ : N * N, on_user_left_video peerId)).
    intros b t. unfold isRemote. by rewrite (proj1 (on_user_left_video_docs _ _)).
Qed.

(** X5.  Only a remote update raises the suppression flag: over any
    sequence of events with no 'document-updated' among them, started with
    the flag down, the flag stays down, and a local edit made then, with a
    document selected, is broadcast and saved. *)
Theorem no_suppression_without_remote_update (es : list Event) (s : AppState) :
  Forall (λ e, ¬ is_remote_update e) es → isRemote s = false →
  isRemote (run es s) = false ∧
  ∀ d v, selectedDoc (run es s) = Some d →
    log (step (EditorChange v) (run es s)) =
      log (run es s) ++
        [SocketEmit (edit_document (_id d) v);
         Fetch PUT (ApiDocument (_id d)) (token (run es s)) (Some v)].
Proof.
  intros Hes Hs.
  assert (isRemote (run es s) = false) as Hr.
  { revert s Hs. unfold run. induction Hes as [|e es He _ IH]; intros s Hs; [done|].
    cbn [foldl]. apply IH. unfold step. rewrite render_isRemote.
    by apply handle_isRemote_down. }
  split; [done|]. intros d v Hd.
  rewrite (step_EditorChange_local _ d v Hd Hr). cbn. by rewrite <- app_assoc.
Qed.

Lemma no_suppression_without_remote_update_witness :
  isRemote (run [SelectDoc docB; JoinVideoCall; SelectDoc docA] editing) = false.
Proof.
  apply (no_suppression_without_remote_update
           [SelectDoc docB; JoinVideoCall; SelectDoc docA] editing).
  - repeat constructor; intros [].
  - vm_compute. reflexivity.
Defined.

(** ** Changing the selection *)

Lemma switch_effects_frame r :
  auth (switch_effects r) = auth r ∧
  joinForm (switch_effects r) = joinForm r ∧
  documents (switch_effects r) = documents r ∧
  documents_ver (switch_effects r) = documents_ver r ∧
  selectedDoc (switch_effects r) = selectedDoc r ∧
  isRemote (switch_effects r) = isRemote r ∧
  video_listeners (switch_effects r) = video_listeners r.
Proof.
  unfold switch_effects, when.
  destruct (doc_cleanup r); cbn beta;
    rewrite ?effect_call_auth, ?effect_join_document_auth, ?call_teardown_auth,
      ?effect_call_documents, ?effect_join_document_documents, ?call_teardown_documents,
      ?effect_call_selectedDoc, ?effect_join_document_selectedDoc,
      ?call_teardown_selectedDoc;
    autorewrite with frame;
    (repeat split; try done);
    unfold effect_call, effect_join_document; destruct (selectedDoc r); cbn;
    by rewrite (proj2 (proj2 (call_teardown_frame _ _))).
Qed.

Lemma switch_effects_state r :
  content (switch_effects r) =
    match selectedDoc r with Some d => doc_content d | None => content r end ∧
  call (switch_effects r) = mkCall false None None ∅ ∅ ∧
  call_cleanup_env (switch_effects r) = (myPeer r, myStream r, peers r) ∧
  log (switch_effects r) =
    log r ++ teardown_effects (call_cleanup_env r) ++
    match selectedDoc r with
    | Some d => [SocketEmit (join_document (_id d))]
    | None => []
    end.
Proof.
  unfold switch_effects, when, effect_call, effect_join_document.
  destruct (doc_cleanup r), (selectedDoc r) as [d|]; cbn;
    rewrite ?call_teardown_call, ?call_teardown_log; unfold content; cbn;
    rewrite ?(proj1 (proj2 (call_teardown_frame _ _))); cbn;
    rewrite <- ?app_assoc, ?app_nil_r; done.
Qed.

Lemma commit_switched prev r :
  token prev = token r → documents_ver prev = documents_ver r →
  selectedDoc prev ≠ selectedDoc r → commit prev r = switch_effects r.
Proof.
  intros Ht Hd Hs. unfold commit, switch_effects.
  rewrite (bool_decide_eq_false_2 (token prev ≠ token r)) by auto.
  rewrite (bool_decide_eq_false_2 (documents_ver prev ≠ documents_ver r)) by auto.
  rewrite (bool_decide_eq_true_2 (selectedDoc prev ≠ selectedDoc r)) by auto.
  reflexivity.
Qed.

Lemma render_switched prev r :
  token prev = token r → documents_ver prev = documents_ver r →
  selectedDoc prev ≠ selectedDoc r → render prev r = switch_effects r.
Proof.
  intros Ht Hd Hs. unfold render. rewrite (commit_switched prev r) by done.
  destruct (switch_effects_frame r) as (Ha & _ & _ & Hv & Hsel & _).
  apply commit_same; [unfold token; by rewrite Ha | done | done].
Qed.

Lemma step_SelectDoc_other s doc :
  selectedDoc s ≠ Some doc →
  step (SelectDoc doc) s = switch_effects (handleSelectDoc (token s) doc s).
Proof. intros H. unfold step. cbn [handle]. by apply render_switched. Qed.

(** X6.  Selecting a document other than the selected one shows the cached
    content of that document, joins its room once, and resets the call
    state of the component (not in a call, no peer, no stream, no
    connections, no video elements).  What is released on the way is what
    the installed cleanup closure holds, and the closure installed for the
    next switch holds the peer, the stream and the connections the
    component had before this one.  The connections are closed in the order
    in which [Object.values] lists them.  The suppression flag is not
    touched. *)
Theorem select_other_document (s : AppState) (doc : Doc) :
  selectedDoc s ≠ Some doc →
  let s' := step (SelectDoc doc) s in
  selectedDoc s' = Some doc ∧ content s' = doc_content doc ∧
  isRemote s' = isRemote s ∧
  (inCall s' = false ∧ myPeer s' = None ∧ myStream s' = None ∧
   peers s' = ∅ ∧ videoRefs s' = ∅) ∧
  log s' = log s ++ [Fetch GET (ApiDocument (_id doc)) (token s) None] ++
           teardown_effects (call_cleanup_env s) ++
           [SocketEmit (join_document (_id doc))] ∧
  call_cleanup_env s' = (myPeer s, myStream s, peers s).
Proof.
  intros H. cbn zeta. rewrite (step_SelectDoc_other s doc H).
  destruct (switch_effects_frame (handleSelectDoc (token s) doc s))
    as (_ & _ & _ & _ & -> & -> & _).
  destruct (switch_effects_state (handleSelectDoc (token s) doc s))
    as (-> & Hc & -> & ->).
  unfold inCall, myPeer, myStream, peers, videoRefs. rewrite Hc. cbn.
  rewrite <- app_assoc. done.
Qed.

Lemma select_other_document_witness :
  let s' := step (SelectDoc docA) moved_on in
  selectedDoc s' = Some docA ∧ content s' = doc_content docA ∧
  isRemote s' = isRemote moved_on ∧
  (inCall s' = false ∧ myPeer s' = None ∧ myStream s' = None ∧
   peers s' = ∅ ∧ videoRefs s' = ∅) ∧
  log s' = log moved_on ++ [Fetch GET (ApiDocument (_id docA)) (token moved_on) None] ++
           teardown_effects (call_cleanup_env moved_on) ++
           [SocketEmit (join_document (_id docA))] ∧
  call_cleanup_env s' = (myPeer moved_on, myStream moved_on, peers moved_on).
Proof.
  apply (select_other_document moved_on docA). vm_compute. discriminate.
Defined.

(** What the closure of the witness releases: the peer, the tracks of the
    stream, then the connections in the order in which [Object.values]
    lists them, here the order in which the peers were called. *)
Example moved_on_releases :
  teardown_effects (call_cleanup_env moved_on) =
    [PeerDestroy 1; TracksStop 0; CallClose 2; CallClose 3].
Proof. vm_compute. reflexivity. Qed.

(** Peer ids that are array indices come first, in numeric order, whenever
    they were called: "10" is called first here, then "9", then "a", after
    "p1". *)
Example teardown_closes_in_property_order :
  teardown_effects
    (call_cleanup_env
       (run [UserJoinedVideo (Some (js "10")); UserJoinedVideo (Some (js "9"));
             UserJoinedVideo (Some (js "a")); SelectDoc docB] calling)) =
    [PeerDestroy 1; TracksStop 0;
     CallClose 4; CallClose 3; CallClose 2; CallClose 5].
Proof. vm_compute. reflexivity. Qed.

Lemma setSelectedDoc_same s doc :
  selectedDoc s = Some doc → setSelectedDoc (Some doc) s = s.
Proof.
  destruct s as [a [ds v sel c i] j cl e l]. cbn. by intros ->.
Qed.

(** X7.  Selecting the document that is already selected only fetches its
    content again: the room is not joined a second time and the call, its
    listeners and the buffer are left as they are. *)
Theorem select_same_document (s : AppState) (doc : Doc) :
  selectedDoc s = Some doc →
  step (SelectDoc doc) s =
    perform (Fetch GET (ApiDocument (_id doc)) (token s) None) s.
Proof.
  intros H. unfold step. cbn [handle]. unfold handleSelectDoc.
  rewrite (setSelectedDoc_same s doc H). by apply render_same.
Qed.

Lemma select_same_document_witness :
  step (SelectDoc docA) calling =
    perform (Fetch GET (ApiDocument (_id docA)) (token calling) None) calling.
Proof.
  apply (select_same_document calling docA). vm_compute. reflexivity.
Defined.

(** X8.  A remote update that no local-edit invocation has consumed yet
    outlives a change of document: the first edit typed in the newly
    selected document is neither broadcast nor saved, and only lowers the
    flag. *)
Theorem pending_suppression_drops_edit_after_switch (s : AppState) (doc : Doc)
    (v : jsval) :
  isRemote s = true → selectedDoc s ≠ Some doc →
  let s1 := step (SelectDoc doc) s in
  let s2 := step (EditorChange v) s1 in
  log s2 = log s1 ∧ isRemote s2 = false ∧ content s2 = v.
Proof.
  intros Hr Hd. cbn zeta. rewrite (step_SelectDoc_other s doc Hd).
  set (r := handleSelectDoc (token s) doc s).
  destruct (switch_effects_frame r) as (_ & _ & _ & _ & Hsel & Hrem & _).
  rewrite (step_EditorChange_remote (switch_effects r) doc v); [done| |].
  - by rewrite Hsel.
  - by rewrite Hrem.
Qed.

Lemma pending_suppression_drops_edit_after_switch_witness :
  let s1 := step (SelectDoc docB) (step (DocumentUpdated (Some (js "remote"))) editing) in
  let s2 := step (EditorChange (Some (js "typed"))) s1 in
  log s2 = log s1 ∧ isRemote s2 = false ∧ content s2 = Some (js "typed").
Proof.
  apply (pending_suppression_drops_edit_after_switch
           (step (DocumentUpdated (Some (js "remote"))) editing) docB (Some (js "typed"))).
  - vm_compute. reflexivity.
  - vm_compute. discriminate.
Defined.

(** ** Logging out *)

Lemma step_Logout s :
  step Logout s =
    match selectedDoc s with
    | Some _ => switch_effects (handleLogout s)
    | None => handleLogout s
    end.
Proof.
  unfold step. cbn [handle]. set (r := handleLogout s).
  assert (commit s r = match selectedDoc s with
                       | Some _ => switch_effects r
                       | None => r
                       end) as Hc.
  { unfold commit, switch_effects, effect_autoselect, fetchDocuments.
    change (token r) with (@nil N). change (documents_ver r) with (documents_ver s).
    change (selectedDoc r) with (@None Doc).
    rewrite (bool_decide_eq_false_2 (documents_ver s ≠ documents_ver s)) by auto.
    destruct (selectedDoc s) as [d|].
    - rewrite (bool_decide_eq_true_2 (Some d ≠ None)) by done.
      unfold when. by destruct (bool_decide (token s ≠ [])).
    - rewrite (bool_decide_eq_false_2 (None ≠ None)) by auto.
      unfold when. by destruct (bool_decide (token s ≠ [])). }
  unfold render. rewrite Hc. destruct (selectedDoc s) as [d|].
  - destruct (switch_effects_frame r) as (Ha & _ & _ & Hv & Hsel & _).
    apply commit_same; [unfold token; by rewrite Ha | done | done].
  - by apply commit_same.
Qed.

(** X9.  Logging out clears the token and the user, in the state and in
    [localStorage], deselects the document and empties the buffer; the
    cached list of documents is kept.  Nothing is sent to the server or to
    the relay: the only effects are the releases made by the installed call
    cleanup, and only when a document was selected. *)
Theorem logout_is_local (s : AppState) :
  let s' := step Logout s in
  (token s' = [] ∧ user s' = None ∧ ls_token s' = None ∧ ls_user s' = None) ∧
  selectedDoc s' = None ∧ content s' = Some [] ∧
  documents s' = documents s ∧
  log s' = log s ++ match selectedDoc s with
                    | Some _ => teardown_effects (call_cleanup_env s)
                    | None => []
                    end.
Proof.
  cbn zeta. rewrite step_Logout. destruct (selectedDoc s) as [d|].
  - destruct (switch_effects_frame (handleLogout s)) as (Ha & _ & Hd & _ & Hsel & _).
    destruct (switch_effects_state (handleLogout s)) as (Hc & _ & _ & Hl).
    unfold token, user, ls_token, ls_user. rewrite Ha, Hd, Hsel, Hc, Hl. cbn.
    by rewrite app_nil_r.
  - cbn. by rewrite app_nil_r.
Qed.

(** Logging out of a session that holds a peer, a stream and two
    connections in its cleanup closure. *)
Example logout_releases :
  log (step Logout moved_on) =
    log moved_on ++ [PeerDestroy 1; TracksStop 0; CallClose 2; CallClose 3].
Proof. vm_compute. reflexivity. Qed.

(** ** The document named by the page address *)

Lemma effect_autoselect_found r s d :
  token r ≠ [] → addressed_doc (location_doc r) (documents r) = Some d →
  effect_autoselect r s = handleSelectDoc (token r) d s.
Proof.
  intros Ht. unfold addressed_doc, effect_autoselect.
  destruct (token r); [done|]. destruct (truthy (location_doc r)); [|discriminate].
  intros Hf. rewrite Hf. cbn [andb].
  rewrite bool_decide_eq_true_2; [done|].
  apply find_some in Hf as [Hin _]. destruct (documents r); [destruct Hin | simpl; lia].
Qed.

Lemma effect_autoselect_none r s :
  addressed_doc (location_doc r) (documents r) = None →
  effect_autoselect r s = s.
Proof.
  unfold addressed_doc, effect_autoselect.
  destruct (token r); [done|]. destruct (truthy (location_doc r)); [|done].
  intros ->. by case_match.
Qed.

Lemma render_autoselect prev r d :
  token prev = token r → token r ≠ [] →
  documents_ver prev ≠ documents_ver r → selectedDoc prev = selectedDoc r →
  addressed_doc (location_doc r) (documents r) = Some d →
  selectedDoc r ≠ Some d →
  render prev r = switch_effects (handleSelectDoc (token r) d r).
Proof.
  intros Ht Hne Hv Hs Hd Hsel. unfold render.
  assert (commit prev r = handleSelectDoc (token r) d r) as ->.
  { unfold commit.
    rewrite (bool_decide_eq_false_2 (token prev ≠ token r)) by auto.
    rewrite (bool_decide_eq_true_2 (documents_ver prev ≠ documents_ver r)) by auto.
    rewrite (bool_decide_eq_false_2 (selectedDoc prev ≠ selectedDoc r)) by auto.
    unfold when. cbn. by apply effect_autoselect_found. }
  by apply commit_switched.
Qed.

Lemma render_autoselect_none prev r :
  token prev = token r → selectedDoc prev = selectedDoc r →
  addressed_doc (location_doc r) (documents r) = None →
  render prev r = r.
Proof.
  intros Ht Hs Hd. unfold render.
  assert (commit prev r = r) as ->.
  { unfold commit.
    rewrite (bool_decide_eq_false_2 (token prev ≠ token r)) by auto.
    rewrite (bool_decide_eq_false_2 (selectedDoc prev ≠ selectedDoc r)) by auto.
    unfold when. cbn. destruct (bool_decide _); [|done].
    by apply effect_autoselect_none. }
  by apply commit_same.
Qed.

(** X10.  When the list of documents arrives (any status but 401, an array
    as body) and the page address names a document, that document is
    opened if it is in the list: it becomes the selection, its cached
    content fills the buffer, its content is fetched and its room joined.
    When the list does not hold it, nothing is opened. *)
Theorem list_arrival_opens_addressed_doc (s : AppState) (st : N) (l : list Doc) :
  token s ≠ [] → st ≠ 401 →
  let s' := step (FetchDocumentsSettled (Response st (Json (Some l)))) s in
  (∀ d, addressed_doc (location_doc s) l = Some d → selectedDoc s ≠ Some d →
     documents s' = l ∧ selectedDoc s' = Some d ∧ content s' = doc_content d ∧
     log s' = log s ++ [Fetch GET (ApiDocument (_id d)) (token s) None] ++
              teardown_effects (call_cleanup_env s) ++
              [SocketEmit (join_document (_id d))]) ∧
  (addressed_doc (location_doc s) l = None →
     s' = setDocuments (λ _, l) s).
Proof.
  intros Ht Hst. cbn zeta. unfold step. cbn [handle]. unfold fetchDocuments_settled.
  rewrite (proj2 (N.eqb_neq st 401) Hst). cbn beta. split.
  - intros d Hd Hsel.
    rewrite (render_autoselect s (setDocuments (λ _, l) s) d);
      [|done|done|unfold documents_ver; cbn; lia|done|done|done].
    set (r := handleSelectDoc _ d _).
    destruct (switch_effects_frame r) as (_ & _ & -> & _ & -> & _).
    destruct (switch_effects_state r) as (-> & _ & _ & ->).
    cbn. by rewrite <- app_assoc.
  - intros Hd. by apply render_autoselect_none.
Qed.

Lemma list_arrival_opens_addressed_doc_witness :
  let s := mount (initial (Some (js "tok")) None (Some (js "doc-B"))) in
  selectedDoc (step (FetchDocumentsSettled (Response 200 (Json (Some [docA; docB])))) s)
    = Some docB ∧
  step (FetchDocumentsSettled (Response 200 (Json (Some [docA])))) s
    = setDocuments (λ _, [docA]) s.
Proof.
  cbn zeta.
  set (s := mount (initial (Some (js "tok")) None (Some (js "doc-B")))).
  assert (token s ≠ []) as Ht by (vm_compute; discriminate).
  assert (200 ≠ 401) as Hst by discriminate.
  split.
  - apply (proj1 (list_arrival_opens_addressed_doc s 200 [docA; docB] Ht Hst) docB).
    + vm_compute. reflexivity.
    + vm_compute. discriminate.
  - apply (proj2 (list_arrival_opens_addressed_doc s 200 [docA] Ht Hst)).
    vm_compute. reflexivity.
Defined.

(** X11.  While the page address names a document of the list, creating a
    document brings the selection back to the addressed one: the list
    changes, the effect of line 44 runs again and selects it. *)
Theorem create_reselects_addressed_doc (s : AppState) (st : N) (doc d : Doc) :
  token s ≠ [] →
  addressed_doc (location_doc s) (documents s ++ [doc]) = Some d →
  selectedDoc s ≠ Some d →
  let s' := step (CreateDocSettled (Response st (Json doc))) s in
  documents s' = documents s ++ [doc] ∧ selectedDoc s' = Some d ∧
  content s' = doc_content d.
Proof.
  intros Ht Hd Hsel. cbn zeta. unfold step. cbn [handle]. unfold handleCreateDoc_settled.
  rewrite (render_autoselect s (setDocuments (λ docs, docs ++ [doc]) s) d);
    [|done|done|unfold documents_ver; cbn; lia|done|done|done].
  set (r := handleSelectDoc _ d _).
  destruct (switch_effects_frame r) as (_ & _ & -> & _ & -> & _).
  destruct (switch_effects_state r) as (-> & _). done.
Qed.

Lemma create_reselects_addressed_doc_witness :
  let s := run [FetchDocumentsSettled (Response 200 (Json (Some [docA; docB])));
                SelectDoc docA]
               (mount (initial (Some (js "tok")) None (Some (js "doc-B")))) in
  selectedDoc s = Some docA ∧
  selectedDoc (step (CreateDocSettled (Response 201
     (Json (mkDoc 3 (Some (js "doc-C")) (Some (js "C")) (Some []))))) s) = Some docB.
Proof.
  cbn zeta. split; [vm_compute; reflexivity|].
  apply create_reselects_addressed_doc.
  - vm_compute. discriminate.
  - vm_compute. reflexivity.
  - vm_compute. discriminate.
Defined.

(** ** Joining by link *)

Lemma step_JoinDocument s : step JoinDocument s = handleJoinDocument (token s) s.
Proof.
  unfold step. cbn [handle].
  apply render_same; unfold handleJoinDocument, join_failed; cbn zeta;
    by case_match.
Qed.

(** X12.  Pressing Join clears the previous success message and then does
    exactly one of two things: it reports an error and sends nothing, or it
    clears the error and sends one request, for an id that is not empty
    and is a contiguous part of the text in the input. *)
Theorem join_sends_request_or_reports (s : AppState) :
  let s' := step JoinDocument s in
  joinSuccess s' = [] ∧ joinLink s' = joinLink s ∧
  ((log s' = log s ∧ joinError s' ≠ []) ∨
   (∃ d, d ≠ [] ∧ (∃ a b, joinLink s = a ++ d ++ b) ∧
         log s' = log s ++ [Fetch GET (ApiDocument (Some d)) (token s) None] ∧
         joinError s' = [])).
Proof.
  cbn zeta. rewrite step_JoinDocument. unfold handleJoinDocument. cbn zeta.
  change (joinLink (setJoinSuccess [] (setJoinError [] s))) with (joinLink s).
  destruct (resolveJoinLink (joinLink s)) as [| |d] eqn:E.
  - split; [done|]. split; [done|]. by left.
  - split; [done|]. split; [done|]. by left.
  - split; [done|]. split; [done|]. right. exists d.
    destruct (resolved_id_infix (joinLink s) d E) as [Hne Hin]. done.
Qed.

(** X13.  A join link answered with a success status and a document makes
    that document the selection, shows its content, empties the input and
    reports success with its title.  The room named in the link is joined by
    the handler and the room of the received document is joined by the
    effect that follows, after the call cleanup has run. *)
Theorem join_by_link_success (s : AppState) (docId : jsstring) (st : N) (data : Doc) :
  200 ≤ st → st ≤ 299 → selectedDoc s ≠ Some data →
  let s' := step (JoinDocumentSettled docId (Response st (Json data))) s in
  selectedDoc s' = Some data ∧ content s' = doc_content data ∧
  joinLink s' = [] ∧
  joinSuccess s' = js "Successfully joined: " ++ to_string (title data) ∧
  inCall s' = false ∧
  log s' = log s ++ [SocketEmit (join_document (Some docId))] ++
           teardown_effects (call_cleanup_env s) ++
           [SocketEmit (join_document (_id data))].
Proof.
  intros H1 H2 Hsel. cbn zeta. unfold step. cbn [handle].
  unfold handleJoinDocument_settled, res_ok.
  rewrite (proj2 (N.leb_le 200 st) H1), (proj2 (N.leb_le st 299) H2). cbn [andb negb].
  rewrite render_switched; [|done|done|done].
  match goal with |- context [switch_effects ?x] => set (r := x) end.
  destruct (switch_effects_frame r) as (_ & Hj & _ & _ & -> & _).
  destruct (switch_effects_state r) as (-> & Hc & _ & ->).
  unfold joinLink, joinSuccess, inCall. rewrite Hj, Hc. cbn.
  by rewrite <- app_assoc.
Qed.

Lemma join_by_link_success_witness :
  let s' := step (JoinDocumentSettled (js "doc-A") (Response 200 (Json docA))) moved_on in
  selectedDoc s' = Some docA ∧ content s' = doc_content docA ∧
  joinLink s' = [] ∧
  joinSuccess s' = js "Successfully joined: " ++ to_string (title docA) ∧
  inCall s' = false ∧
  log s' = log moved_on ++ [SocketEmit (join_document (Some (js "doc-A")))] ++
           teardown_effects (call_cleanup_env moved_on) ++
           [SocketEmit (join_document (_id docA))].
Proof.
  apply (join_by_link_success moved_on (js "doc-A") 200 docA).
  - vm_compute. discriminate.
  - vm_compute. discriminate.
  - vm_compute. discriminate.
Defined.

(** ** Documents *)

Lemma filter_other_ids (docId : jsval) (l : list Doc) :
  (∀ d, d ∈ l → _id d ≠ docId) → filter (λ d, _id d ≠ docId) l = l.
Proof.
  induction l as [|x l IH]; intros H; [done|].
  rewrite filter_cons_True by (apply H; by left).
  rewrite IH; [done|]. intros d Hd. apply H. by right.
Qed.

(** X14.  The body of a create response is appended to the list whatever
    its status, and deleting by its id takes it out again: when no document
    of the list had that id, creating and then deleting restores the
    list. *)
Theorem create_then_delete_restores_list (s : AppState) (st : N) (doc : Doc)
    (selected : option Doc) (r : FetchResult unit) :
  (∀ d, d ∈ documents s → _id d ≠ _id doc) →
  let s1 := step (CreateDocSettled (Response st (Json doc))) s in
  let s2 := step (DeleteDocSettled (_id doc) selected r) s1 in
  documents s1 = documents s ++ [doc] ∧ documents s2 = documents s.
Proof.
  intros H. cbn zeta. unfold step. rewrite !render_documents. cbn [handle].
  assert (∀ t, documents (handleDeleteDoc_settled (_id doc) selected r t) =
               filter (λ d, _id d ≠ _id doc) (documents t)) as Hdel.
  { intros t. unfold handleDeleteDoc_settled, when. by case_match. }
  rewrite Hdel, render_documents. unfold handleCreateDoc_settled.
  change (documents (setDocuments (λ docs, docs ++ [doc]) s)) with (documents s ++ [doc]).
  split; [done|]. rewrite filter_app, (filter_other_ids _ _ H).
  rewrite filter_cons_False by (intros E; by apply E). by rewrite app_nil_r.
Qed.

Lemma create_then_delete_restores_list_witness :
  let c := mkDoc 3 (Some (js "doc-C")) (Some (js "C")) (Some []) in
  documents (step (DeleteDocSettled (Some (js "doc-C")) None (Rejected []))
               (step (CreateDocSettled (Response 500 (Json c))) loaded)) =
  documents loaded.
Proof.
  cbn zeta.
  apply (create_then_delete_restores_list loaded 500
           (mkDoc 3 (Some (js "doc-C")) (Some (js "C")) (Some [])) None (Rejected [])).
  intros d Hd. vm_compute in Hd.
  apply list_elem_of_In in Hd. destruct Hd as [<- | [<- | []]]; discriminate.
Defined.

(** ** Peers coming and going *)

Lemma step_CallStream s c : step (CallStream c) s = call_on_stream c s.
Proof.
  unfold step. cbn [handle].
  apply render_same; unfold call_on_stream, fresh; case_match; try done;
    by addPeerStream_frame.
Qed.

Lemma step_PeerOpen s p id : step (PeerOpen p id) s = peer_on_open p id s.
Proof.
  unfold step. cbn [handle].
  apply render_same; unfold peer_on_open; by repeat case_match.
Qed.

(** A stream that arrives for a peer with no video element of its own. *)
Lemma addPeerStream_new peerId stream isSelf s :
  videoRefs s !! peerId = None →
  videoRefs (addPeerStream peerId stream isSelf s) =
    (if found_on_prototype s peerId then videoRefs s
     else <[peerId := mkVideo (Some stream) true true isSelf]> (videoRefs s)) ∧
  log (addPeerStream peerId stream isSelf s) =
    log s ++ (if found_on_prototype s peerId
              then [SrcObjectOnBuiltin peerId (Some stream)] else []).
Proof.
  intros Hv. unfold addPeerStream. rewrite Hv.
  destruct (found_on_prototype s peerId); cbn; by rewrite ?app_nil_r.
Qed.

(** An outbound connection attempt leaves the prototype chain alone. *)
Lemma found_on_prototype_called s s' key peer pid stream c :
  log s' = log s ++ [PeerCall peer pid stream c] →
  found_on_prototype s' key = found_on_prototype s key.
Proof.
  intros H. apply found_on_prototype_log. rewrite H.
  by rewrite prototype_srcObject_snoc.
Qed.

(** X15.  A peer that joins and then leaves, with one call under way whose
    peer has not been destroyed, leaves no trace in the component: the
    connection placed to it is the one that is closed, and the peers map
    and the video references are back to what they were.  Before the
    connection is closed, a peer id that names a property of
    [Object.prototype] has [srcObject] cleared on the built-in object of
    that name. *)
Theorem peer_join_then_leave (s : AppState) (peer stream : N) (pid : jsstring) :
  video_listeners s = [(peer, stream)] →
  pid ≠ [] → peer_id s !! peer ≠ Some pid → PeerDestroy peer ∉ log s →
  peers s !! pid = None → videoRefs s !! pid = None →
  let s' := run [UserJoinedVideo (Some pid); UserLeftVideo (Some pid)] s in
  peers s' = peers s ∧ videoRefs s' = videoRefs s ∧
  log s' = log s ++ [PeerCall peer pid stream (next_handle s)] ++
           (if found_on_prototype s pid
            then [SrcObjectOnBuiltin pid None] else []) ++
           [CallClose (next_handle s)].
Proof.
  intros Hl Hne Hself Hlive Hp Hv. cbn zeta. unfold run. cbn [foldl].
  rewrite (step_UserJoinedVideo s peer stream (Some pid) Hl).
  rewrite (on_user_joined_video_calls s peer stream pid Hne Hself Hlive).
  cbn [default].
  match goal with |- context [step _ ?x] => set (s1 := x) end.
  rewrite step_UserLeftVideo. unfold socket_user_left_video.
  change (video_listeners s1) with (video_listeners s). rewrite Hl. cbn [foldl].
  destruct (on_user_left_video_effect s1 (Some pid)) as (-> & -> & ->).
  cbn [to_string].
  assert (found_on_prototype s1 pid = found_on_prototype s pid) as ->.
  { by apply (found_on_prototype_called s s1 pid peer pid stream (next_handle s)). }
  change (videoRefs s1) with (videoRefs s).
  change (peers s1) with (<[pid := next_handle s]> (peers s)).
  change (log s1) with (log s ++ [PeerCall peer pid stream (next_handle s)]).
  rewrite Hv, obj_lookup_insert_eq, obj_delete_insert_eq.
  rewrite (obj_delete_id _ _ Hp), (delete_id _ _ Hv).
  by rewrite <- app_assoc.
Qed.

Lemma peer_join_then_leave_witness :
  let s' := run [UserJoinedVideo (Some (js "p2")); UserLeftVideo (Some (js "p2"))]
                calling in
  peers s' = peers calling ∧ videoRefs s' = videoRefs calling ∧
  log s' = log calling ++ [PeerCall 1 (js "p2") 0 (next_handle calling)] ++
           (if found_on_prototype calling (js "p2")
            then [SrcObjectOnBuiltin (js "p2") None] else []) ++
           [CallClose (next_handle calling)].
Proof.
  apply (peer_join_then_leave calling 1 0 (js "p2")).
  - vm_compute. reflexivity.
  - discriminate.
  - vm_compute. discriminate.
  - apply (bool_decide_eq_false_1 (PeerDestroy 1 ∈ log calling)).
    vm_compute. reflexivity.
  - vm_compute. reflexivity.
  - vm_compute. reflexivity.
Defined.

(** X16.  With one call under way whose peer has not been destroyed, a
    peer that joins gets one outbound connection, registered under its id.
    When that connection delivers the remote stream, a video element is
    created for the peer, playing the stream and not muted; unless the
    peer's id names a property of [Object.prototype], such as
    'constructor': then no element is created, and the stream is stored on
    the built-in object of that name. *)
Theorem peer_join_then_stream (s : AppState) (peer stream : N) (pid : jsstring) :
  video_listeners s = [(peer, stream)] →
  pid ≠ [] → peer_id s !! peer ≠ Some pid → PeerDestroy peer ∉ log s →
  videoRefs s !! pid = None →
  let c := next_handle s in
  let s' := run [UserJoinedVideo (Some pid); CallStream c] s in
  peers s' !! pid = Some c ∧
  if found_on_prototype s pid then
    videoRefs s' = videoRefs s ∧
    log s' = log s ++ [PeerCall peer pid stream c;
                       SrcObjectOnBuiltin pid (Some (N.succ c))]
  else
    videoRefs s' !! pid = Some (mkVideo (Some (N.succ c)) true true false) ∧
    log s' = log s ++ [PeerCall peer pid stream c].
Proof.
  intros Hl Hne Hself Hlive Hv. cbn zeta. unfold run. cbn [foldl].
  rewrite (step_UserJoinedVideo s peer stream (Some pid) Hl).
  rewrite (on_user_joined_video_calls s peer stream pid Hne Hself Hlive).
  cbn [default].
  match goal with |- context [step _ ?x] => set (s1 := x) end.
  rewrite step_CallStream. unfold call_on_stream.
  assert (call_handlers s1 !! next_handle s = Some pid) as ->.
  { subst s1. cbn. apply lookup_insert_eq. }
  unfold fresh.
  change (next_handle s1) with (N.succ (next_handle s)).
  match goal with |- context [addPeerStream _ _ _ ?x] => set (s2 := x) end.
  assert (videoRefs s2 !! pid = None) as Hv2 by exact Hv.
  destruct (addPeerStream_frame pid (N.succ (next_handle s)) false s2)
    as (_ & _ & _ & _ & _ & _ & _ & ->).
  destruct (addPeerStream_new pid (N.succ (next_handle s)) false s2 Hv2)
    as (-> & ->).
  assert (found_on_prototype s2 pid = found_on_prototype s pid) as ->.
  { by apply (found_on_prototype_called s s2 pid peer pid stream (next_handle s)). }
  change (videoRefs s2) with (videoRefs s).
  change (peers s2) with (<[pid := next_handle s]> (peers s)).
  change (log s2) with (log s ++ [PeerCall peer pid stream (next_handle s)]).
  split; [apply obj_lookup_insert_eq|].
  destruct (found_on_prototype s pid).
  - split; [done|]. by rewrite <- app_assoc.
  - split; [apply lookup_insert_eq|]. by rewrite app_nil_r.
Qed.

Lemma peer_join_then_stream_witness :
  (let c := next_handle calling in
   let s' := run [UserJoinedVideo (Some (js "p2")); CallStream c] calling in
   peers s' !! js "p2" = Some c ∧
   if found_on_prototype calling (js "p2") then
     videoRefs s' = videoRefs calling ∧
     log s' = log calling ++ [PeerCall 1 (js "p2") 0 c;
                              SrcObjectOnBuiltin (js "p2") (Some (N.succ c))]
   else
     videoRefs s' !! js "p2" = Some (mkVideo (Some (N.succ c)) true true false) ∧
     log s' = log calling ++ [PeerCall 1 (js "p2") 0 c]) ∧
  (let c := next_handle calling in
   let s' := run [UserJoinedVideo (Some (js "constructor")); CallStream c] calling in
   peers s' !! js "constructor" = Some c ∧
   if found_on_prototype calling (js "constructor") then
     videoRefs s' = videoRefs calling ∧
     log s' = log calling ++ [PeerCall 1 (js "constructor") 0 c;
                              SrcObjectOnBuiltin (js "constructor") (Some (N.succ c))]
   else
     videoRefs s' !! js "constructor" =
       Some (mkVideo (Some (N.succ c)) true true false) ∧
     log s' = log calling ++ [PeerCall 1 (js "constructor") 0 c]).
Proof.
  split.
  - apply (peer_join_then_stream calling 1 0 (js "p2")).
    + vm_compute. reflexivity.
    + discriminate.
    + vm_compute. discriminate.
    + apply (bool_decide_eq_false_1 (PeerDestroy 1 ∈ log calling)).
      vm_compute. reflexivity.
    + vm_compute. reflexivity.
  - apply (peer_join_then_stream calling 1 0 (js "constructor")).
    + vm_compute. reflexivity.
    + discriminate.
    + vm_compute. discriminate.
    + apply (bool_decide_eq_false_1 (PeerDestroy 1 ∈ log calling)).
      vm_compute. reflexivity.
    + vm_compute. reflexivity.
Defined.

(** The two cases on the session: "p2" gets a video element,
    'constructor' gets none. *)
Example stream_of_a_peer_named_constructor :
  found_on_prototype calling (js "p2") = false ∧
  found_on_prototype calling (js "constructor") = true ∧
  videoRefs (run [UserJoinedVideo (Some (js "constructor")); CallStream 3] calling)
    = videoRefs calling.
Proof. vm_compute. done. Qed.

(** X17.  When the camera is granted to the first join of a session, a
    peer is created and the local preview is added, muted; when the peer
    opens, the call is announced once, for the document that was selected
    at the click and under the id the peer was given; and when the relay
    sends that announcement back, the component does not call itself. *)
Theorem join_announces_and_ignores_own_echo (s : AppState) (d : Doc) (id : jsstring) :
  video_listeners s = [] → videoRefs s !! js "me" = None →
  let stream := next_handle s in
  let peer := N.succ stream in
  let s' := run [JoinVideoCallSettled d true; PeerOpen peer id;
                 UserJoinedVideo (Some id)] s in
  myStream s' = Some stream ∧ myPeer s' = Some peer ∧
  videoRefs s' = <[js "me" := mkVideo (Some stream) true true true]> (videoRefs s) ∧
  peers s' = peers s ∧
  log s' = log s ++ [NewPeer peer; SocketEmit (join_video (_id d) id)].
Proof.
  intros Hl Hv. cbn zeta. unfold run. cbn [foldl].
  rewrite step_JoinVideoCallSettled.
  unfold handleJoinVideoCall_settled, fresh.
  match goal with |- context [addPeerStream _ _ _ ?x] => set (s0 := x) end.
  change (next_handle (setMyStream (Some (next_handle s))
                         (set_next_handle (N.succ (next_handle s)) s)))
    with (N.succ (next_handle s)) in *.
  assert (videoRefs s0 !! js "me" = None) as Hv0 by exact Hv.
  destruct (addPeerStream_frame (js "me") (next_handle s) true s0)
    as (Ha & Hd & Hj & He & Hic & Hmp & Hms & Hps).
  destruct (addPeerStream_new (js "me") (next_handle s) true s0 Hv0) as (Hvr & Hlog).
  change (found_on_prototype s0 (js "me")) with false in Hvr, Hlog.
  rewrite app_nil_r in Hlog.
  match goal with |- context [step (PeerOpen _ _) ?x] => set (s1 := x) in * end.
  assert (peer_handlers s1 !! N.succ (next_handle s) = Some (d, next_handle s)) as Hh.
  { unfold peer_handlers. rewrite He. apply lookup_insert_eq. }
  rewrite step_PeerOpen. unfold peer_on_open. rewrite Hh.
  match goal with |- context [step (UserJoinedVideo _) ?x] => set (s2 := x) end.
  assert (video_listeners s2 = [(N.succ (next_handle s), next_handle s)]) as Hl2.
  { change (video_listeners s2) with (video_listeners s1).
    unfold video_listeners. rewrite He.
    change (e_video_listeners (env s0)) with
      (video_listeners s ++ [(N.succ (next_handle s), next_handle s)]).
    by rewrite Hl. }
  rewrite (step_UserJoinedVideo s2 _ _ (Some id) Hl2).
  rewrite on_user_joined_video_ignored.
  2: { right. left. subst s2. cbn -[js]. by rewrite lookup_insert_eq. }
  change (myStream s2) with (myStream s1). change (myPeer s2) with (myPeer s1).
  change (videoRefs s2) with (videoRefs s1). change (peers s2) with (peers s1).
  change (log s2) with (log s1 ++ [SocketEmit (join_video (_id d) id)]).
  rewrite Hms, Hmp, Hvr, Hps, Hlog.
  repeat split. cbn. by rewrite <- app_assoc.
Qed.

Lemma join_announces_and_ignores_own_echo_witness :
  let s := step JoinVideoCall editing in
  log (run [JoinVideoCallSettled docA true; PeerOpen 1 (js "me-id");
            UserJoinedVideo (Some (js "me-id"))] s) =
  log s ++ [NewPeer 1; SocketEmit (join_video (_id docA) (js "me-id"))].
Proof.
  cbn zeta.
  apply (join_announces_and_ignores_own_echo (step JoinVideoCall editing) docA (js "me-id")).
  - vm_compute. reflexivity.
  - vm_compute. reflexivity.
Defined.

(** ** Listeners left behind *)

Lemma user_joined_video_listeners (ls : list (N * N)) (pid : jsstring) (s : AppState) :
  pid ≠ [] → (∀ l, l ∈ ls → peer_id s !! l.1 ≠ Some pid) →
  (∀ l, l ∈ ls → PeerDestroy l.1 ∉ log s) →
  let s' := emit_user_joined_video ls (Some pid) s in
  log s' = log s ++
    imap (λ i l, PeerCall l.1 pid l.2 (next_handle s + N.of_nat i)) ls ∧
  next_handle s' = next_handle s + N.of_nat (length ls) ∧
  peer_id s' = peer_id s.
Proof.
  intros Hne. revert s.
  induction ls as [|[p st] ls IH]; intros s Hself Hlive; cbn zeta.
  - cbn. rewrite app_nil_r, N.add_0_r. done.
  - cbn [emit_user_joined_video fst snd].
    rewrite (on_user_joined_video_calls s p st pid Hne
               (Hself (p, st) ltac:(by left)) (Hlive (p, st) ltac:(by left))).
    match goal with |- context [emit_user_joined_video ls _ ?x] => set (s1 := x) end.
    destruct (IH s1) as (-> & -> & ->).
    { intros l Hl. subst s1. cbn. fold (peer_id s). apply Hself. by right. }
    { intros l Hl. subst s1. cbn. fold (log s). intros Hin.
      apply elem_of_app in Hin as [Hin | Hin].
      - by apply (Hlive l ltac:(by right)).
      - by apply list_elem_of_singleton in Hin. }
    subst s1. cbn. fold (next_handle s). rewrite N.add_0_r, <- app_assoc. cbn.
    repeat split.
    + do 2 f_equal. apply imap_ext. intros i l _. cbn. f_equal. lia.
    + lia.
Qed.

(** X19.  Every pair of call listeners ever registered answers a
    'user-joined-video': as long as none of their peers has been destroyed
    and the id is not one of those peers' own, the notification places one
    outbound connection per registered pair, each through the peer and with
    the stream that pair closed over. *)
Theorem every_registered_listener_calls (s : AppState) (pid : jsstring) :
  pid ≠ [] → (∀ l, l ∈ video_listeners s → peer_id s !! l.1 ≠ Some pid) →
  (∀ l, l ∈ video_listeners s → PeerDestroy l.1 ∉ log s) →
  log (step (UserJoinedVideo (Some pid)) s) =
    log s ++ imap (λ i l, PeerCall l.1 pid l.2 (next_handle s + N.of_nat i))
                  (video_listeners s).
Proof.
  intros Hne Hself Hlive. unfold step. cbn [handle]. unfold socket_user_joined_video.
  destruct (user_joined_video_listeners (video_listeners s) pid s Hne Hself Hlive)
    as (Hlog & _).
  cbn zeta in Hlog. rewrite <- Hlog. f_equal.
  destruct (emit_user_joined_video_keeps (video_listeners s) (Some pid) s)
    as (Ha & Hd & _).
  apply render_same; unfold token, documents_ver, selectedDoc; by rewrite ?Ha, ?Hd.
Qed.

Lemma every_registered_listener_calls_witness :
  let s := run [SelectDoc docB; JoinVideoCall; JoinVideoCallSettled docB true;
                PeerOpen 4 (js "me-2")] calling in
  log (step (UserJoinedVideo (Some (js "p9"))) s) =
    log s ++ [PeerCall 1 (js "p9") 0 5; PeerCall 4 (js "p9") 3 6].
Proof.
  cbn zeta.
  rewrite every_registered_listener_calls.
  - vm_compute. reflexivity.
  - discriminate.
  - intros l Hl. apply list_elem_of_In in Hl. vm_compute in Hl.
    destruct Hl as [<- | [<- | []]]; vm_compute; discriminate.
  - intros l Hl. apply list_elem_of_In in Hl. vm_compute in Hl.
    destruct Hl as [<- | [<- | []]]; intros Hin; apply list_elem_of_In in Hin;
      vm_compute in Hin; repeat destruct Hin as [Hin | Hin]; try discriminate Hin;
      destruct Hin.
Defined.

(** Why the peers must be alive: the listener of a destroyed peer throws,
    and the listener registered after it, whose peer is alive, is not
    called. *)
Example silenced_by_a_destroyed_peer :
  let s := run [JoinVideoCall; JoinVideoCallSettled docA true;
                PeerOpen 4 (js "me-2")] returned in
  video_listeners s = [(1, 0); (4, 3)] ∧
  peer_destroyed s 1 = true ∧ peer_destroyed s 4 = false ∧
  step (UserJoinedVideo (Some (js "p9"))) s = s.
Proof. vm_compute. done. Qed.

(** ** Opening the page *)

(** X20.  A page opened with no stored user, so that line 16 parses
    nothing, and with a token in [localStorage], asks once for the list of
    documents, with that token, and does nothing else; opened without a
    token it sends nothing.  Either way no user is signed in as far as the
    component knows, no document is selected and no listener is
    registered. *)
Theorem mount_fetches_list_once (stored_token stored_user : option jsstring)
    (loc : jsval) :
  truthy stored_user = false →
  let s := mount (initial stored_token stored_user loc) in
  log s = match stored_token with
          | Some (c :: t) => [Fetch GET ApiDocuments (c :: t) None]
          | _ => []
          end ∧
  user s = None ∧
  selectedDoc s = None ∧ documents s = [] ∧ doc_listeners s = 0%nat ∧
  inCall s = false.
Proof.
  intros Hu. cbn zeta. unfold mount.
  set (s0 := initial stored_token stored_user loc).
  assert (user s0 = None) as Hu0.
  { subst s0. unfold initial, user. cbn. by rewrite Hu. }
  assert (effect_autoselect s0 s0 = s0) as Ha.
  { unfold effect_autoselect. change (documents s0) with (@nil Doc).
    destruct (token s0); [done|]. cbn. by rewrite andb_false_r. }
  rewrite Ha. set (s1 := effect_call s0 _).
  assert (commit s0 s1 = s1) as ->.
  { apply commit_same; subst s1; autorewrite with frame;
      rewrite ?effect_call_selectedDoc, ?effect_join_document_selectedDoc,
        ?fetchDocuments_selectedDoc; done. }
  assert (user s1 = user s0) as Hu1.
  { subst s1. unfold user.
    by rewrite effect_call_auth, effect_join_document_auth, fetchDocuments_auth. }
  rewrite Hu1, Hu0. clear Hu0 Hu1.
  subst s1 s0. destruct stored_token as [[|c t]|]; done.
Qed.

Lemma mount_fetches_list_once_witness :
  let s := mount (initial (Some (js "tok")) None (Some (js "doc-B"))) in
  log s = match Some (js "tok") with
          | Some (c :: t) => [Fetch GET ApiDocuments (c :: t) None]
          | _ => []
          end ∧
  user s = None ∧
  selectedDoc s = None ∧ documents s = [] ∧ doc_listeners s = 0%nat ∧
  inCall s = false.
Proof.
  apply (mount_fetches_list_once (Some (js "tok")) None (Some (js "doc-B"))).
  reflexivity.
Defined.

(** ** Failed joins and bare ids *)

Lemma join_failed_sets_message m s :
  ∃ msg, msg ≠ [] ∧ join_failed m s = setJoinError msg s.
Proof.
  unfold join_failed. destruct m as [|c m].
  - by exists (js "Failed to join document").
  - by exists (c :: m).
Qed.

(** X21.  A join that fails, because the request is rejected, the status
    is not a success, or the body does not parse, changes nothing but the
    error message, which is never empty: the selection, the buffer, the
    input and the call are as before and nothing is sent. *)
Theorem failed_join_only_reports (s : AppState) (docId : jsstring)
    (r : FetchResult Doc) :
  (∀ st data, r = Response st (Json data) → res_ok r = false) →
  ∃ msg, msg ≠ [] ∧ step (JoinDocumentSettled docId r) s = setJoinError msg s.
Proof.
  intros Hfail.
  assert (∃ msg, msg ≠ [] ∧ handleJoinDocument_settled docId r s = setJoinError msg s)
    as (msg & Hmsg & Heq).
  { unfold handleJoinDocument_settled. destruct r as [m|st body].
    - apply join_failed_sets_message.
    - destruct (res_ok (Response st body)) eqn:Eok; cbn [negb].
      + destruct body as [m|data]; [apply join_failed_sets_message|].
        pose proof (Hfail st data eq_refl) as Hf. unfold res_ok in Eok, Hf. congruence.
      + repeat case_match; apply join_failed_sets_message. }
  exists msg. split; [done|]. unfold step. cbn [handle]. rewrite Heq.
  by apply render_same.
Qed.

Lemma failed_join_only_reports_witness :
  ∃ msg, msg ≠ [] ∧
    step (JoinDocumentSettled (js "doc-Z") (Response 404 (JsonError []))) editing =
      setJoinError msg editing.
Proof.
  apply (failed_join_only_reports editing (js "doc-Z") (Response 404 (JsonError []))).
  intros st data H. discriminate H.
Defined.

Lemma trimStart_blanks w x :
  Forall (λ c, is_ws c = true) w → trimStart (w ++ x) = trimStart x.
Proof. induction 1 as [|c w Hc _ IH]; [done|]. simpl. by rewrite Hc. Qed.

Lemma trimStart_id x :
  (∀ c, head x = Some c → is_ws c = false) → trimStart x = x.
Proof. destruct x as [|c x]; [done|]. intros H. simpl. by rewrite (H c eq_refl). Qed.

Lemma head_rev (l : list N) : head (rev l) = last l.
Proof.
  destruct l as [|x l _] using rev_ind; [done|].
  rewrite rev_app_distr, last_snoc. done.
Qed.

Lemma trim_between_blanks w1 x w2 :
  Forall (λ c, is_ws c = true) w1 → Forall (λ c, is_ws c = true) w2 →
  x ≠ [] →
  (∀ c, head x = Some c → is_ws c = false) →
  (∀ c, last x = Some c → is_ws c = false) →
  trim (w1 ++ x ++ w2) = x.
Proof.
  intros H1 H2 Hne Hh Hl. unfold trim.
  rewrite (trimStart_blanks w1 _ H1).
  rewrite (trimStart_id (x ++ w2)) by (destruct x; [done | exact Hh]).
  rewrite rev_app_distr, trimStart_blanks.
  - rewrite trimStart_id; [apply rev_involutive|]. by rewrite head_rev.
  - apply Forall_forall. intros c Hc. rewrite Forall_forall in H2. apply H2.
    apply list_elem_of_In. apply list_elem_of_In, in_rev in Hc. done.
Qed.

(** X22.  Blanks around a bare id do not matter: a link made of blanks, an
    id that neither starts nor ends with a blank, and blanks again, with no
    '?doc=' and no '/documents/' in it, resolves to the id. *)
Theorem bare_id_between_blanks (w1 id w2 : jsstring) :
  Forall (λ c, is_ws c = true) w1 → Forall (λ c, is_ws c = true) w2 →
  id ≠ [] →
  (∀ c, head id = Some c → is_ws c = false) →
  (∀ c, last id = Some c → is_ws c = false) →
  ¬ occurs qdoc (w1 ++ id ++ w2) → ¬ occurs documents_seg (w1 ++ id ++ w2) →
  resolveJoinLink (w1 ++ id ++ w2) = DocId id.
Proof.
  intros H1 H2 Hne Hh Hl Hq Hd.
  pose proof (trim_between_blanks w1 id w2 H1 H2 Hne Hh Hl) as Ht.
  rewrite resolve_nonblank by (by rewrite Ht).
  unfold handleJoinDocument_docId.
  apply includes_false in Hq, Hd. rewrite Hq, Hd, Ht. by destruct id.
Qed.

Lemma bare_id_between_blanks_witness :
  resolveJoinLink (js "  " ++ js "abc 123" ++ [9; 10]) = DocId (js "abc 123").
Proof.
  apply (bare_id_between_blanks (js "  ") (js "abc 123") [9; 10]).
  - repeat constructor.
  - repeat constructor.
  - discriminate.
  - intros c [= <-]. reflexivity.
  - intros c [= <-]. reflexivity.
  - apply includes_false. vm_compute. reflexivity.
  - apply includes_false. vm_compute. reflexivity.
Defined.
